(** * EmailSend v2, "send" operation

    A shallow embedding of
    [packages/nodes-base/nodes/EmailSend/v2/send.operation.ts]:
    [configureTransport] and [execute], together with the fragment of
    JavaScript they rely on (truthiness, [||], [??], [%], [split], [trim],
    [Promise.allSettled]).

    Conventions.
    - A JavaScript [number] that holds a count or an index is a [Z] or a
      [nat]; [NaN], the only non-integral value the code can produce, is the
      [None] of [js_rem].
    - A string is a [string] of 8-bit code units.
    - An object used as a dictionary ([item.binary], an error payload, a
      [json] record) is a [gmap string _].
    - The execution context [this] is a record of operations; those that
      can throw return a [Completion].
    - The first loop of [execute] runs in a state-and-exception monad [M]
      whose state holds the effects the loop performs. *)

From Stdlib Require Import ZArith String Ascii List Lia.
From stdpp Require Import base option list gmap strings.

Local Open Scope string_scope.
Local Open Scope list_scope.
Local Open Scope nat_scope.

(** ** JavaScript fragment *)

Module Js.

(** Values stored in JSON-like objects. *)
Inductive JsonValue : Type :=
| JUndefined
| JNull
| JBool (b : bool)
| JNumber (n : Z)
| JString (s : string).

(** [ToBoolean] on an optional string: [undefined] and [''] are falsy. *)
Definition truthy (o : option string) : bool :=
  match o with
  | Some s => negb (String.eqb s "")
  | None => false
  end.

(** [a || d] on an optional string. *)
Definition or_else (o : option string) (d : string) : string :=
  match o with
  | Some s => if String.eqb s "" then d else s
  | None => d
  end.

(** [a ?? d]: only [undefined] (and [null]) take the default. *)
Definition nullish {A : Type} (o : option A) (d : A) : A :=
  match o with
  | Some a => a
  | None => d
  end.

(** [a % b] on integral numbers: the sign follows the dividend, and a zero
    divisor gives [NaN], here [None]. *)
Definition js_rem (a b : Z) : option Z :=
  if (b =? 0)%Z then None else Some (Z.rem a b).

(** [x === k] for a number [x] that may be [NaN]. *)
Definition strict_eq (x : option Z) (k : Z) : bool :=
  match x with
  | Some v => (v =? k)%Z
  | None => false
  end.

(** [String.prototype.split] with a one-character separator. *)
Fixpoint split (sep : ascii) (s : string) : list string :=
  match s with
  | EmptyString => [EmptyString]
  | String c rest =>
      if Ascii.eqb c sep then EmptyString :: split sep rest
      else match split sep rest with
           | [] => [String c EmptyString]
           | w :: ws => String c w :: ws
           end
  end.

(** WhiteSpace and LineTerminator code units below 256:
    TAB, LF, VT, FF, CR, SP and NBSP. *)
Definition is_white_space (c : ascii) : bool :=
  let n := nat_of_ascii c in
  (Nat.leb 9 n && Nat.leb n 13) || Nat.eqb n 32 || Nat.eqb n 160.

Fixpoint trimStart (s : string) : string :=
  match s with
  | EmptyString => EmptyString
  | String c rest => if is_white_space c then trimStart rest else s
  end.

(** [trimEnd] drops a character when it is white space and everything
    after it has been dropped. *)
Fixpoint trimEnd (s : string) : string :=
  match s with
  | EmptyString => EmptyString
  | String c rest =>
      match trimEnd rest with
      | EmptyString => if is_white_space c then EmptyString else String c EmptyString
      | kept => String c kept
      end
  end.

Definition trim (s : string) : string := trimEnd (trimStart s).

(** [Array.prototype.shift]: the first element ([undefined] on an empty
    array, here [None]) and the array that is left. *)
Definition shift {A : Type} (l : list A) : option A * list A :=
  match l with
  | [] => (None, [])
  | x :: rest => (Some x, rest)
  end.

(** [Promise.allSettled]. [promises] gives, for each promise of the input
    array, the result it settles to; [order] lists the positions in the
    order in which the promises settle. Each settlement stores its result
    in the slot of its own position; the combined promise resolves once
    every slot is filled, and never resolves ([None]) otherwise. *)
Definition settle_slot {R : Type} (promises : list R)
    (values : list (option R)) (k : nat) : list (option R) :=
  <[k := promises !! k]> values.

Definition allSettled {R : Type} (promises : list R) (order : list nat)
    : option (list R) :=
  mapM id (foldl (settle_slot promises) (replicate (length promises) None) order).

End Js.

Import Js.

Abbreviation JsonObject := (gmap string JsonValue).

(** ** Data of the node *)

(** [IBinaryData], the fields the operation reads. *)
Record IBinaryData : Type := {
  data : string;
  mimeType : string;
  fileName : option string
}.

(** [INodeExecutionData]. *)
Record INodeExecutionData : Type := {
  json : JsonObject;
  binary : option (gmap string IBinaryData);
  pairedItem : option nat
}.

(** The [batching] option: [{ batch?: { batchSize?, batchInterval? } }]. *)
Record Batch : Type := {
  batchSize : option Z;
  batchInterval : option Z
}.

Record Batching : Type := {
  batch : option Batch
}.

Module EmailSendOptions.
Record t : Type := {
  allowUnauthorizedCerts : option bool;
  attachments : option string;
  ccEmail : option string;
  bccEmail : option string;
  replyTo : option string;
  batching : option Batching
}.
End EmailSendOptions.

(** The smtp credentials object. *)
Module Credentials.
Record t : Type := {
  host : string;
  port : Z;
  secure : bool;
  user : option string;
  password : option string
}.
End Credentials.

(** [SMTPTransport.Options], the fields [configureTransport] sets. *)
Module SMTPTransport.
Record Auth : Type := {
  user : option string;
  pass : option string
}.
Record Tls : Type := {
  rejectUnauthorized : bool
}.
Record Options : Type := {
  host : string;
  port : Z;
  secure : bool;
  auth : option Auth;
  tls : option Tls
}.
End SMTPTransport.

(** A nodemailer transporter keeps the options it was created with. *)
Record Transporter : Type := createTransport {
  transport_options : SMTPTransport.Options
}.

Record Attachment : Type := {
  filename : string;
  content : list Byte.byte;
  cid : string
}.

(** [mailOptions]; a key the code adds conditionally is an [option]. *)
Module Mail.
Record t : Type := {
  from : string;
  to : string;
  cc : option string;
  bcc : option string;
  subject : string;
  replyTo : option string;
  text : option string;
  html : option string;
  attachments : option (list Attachment)
}.
Definition with_text (m : t) (v : string) : t :=
  {| from := from m; to := to m; cc := cc m; bcc := bcc m; subject := subject m;
     replyTo := replyTo m; text := Some v; html := html m;
     attachments := attachments m |}.
Definition with_html (m : t) (v : string) : t :=
  {| from := from m; to := to m; cc := cc m; bcc := bcc m; subject := subject m;
     replyTo := replyTo m; text := text m; html := Some v;
     attachments := attachments m |}.
Definition with_attachments (m : t) (v : list Attachment) : t :=
  {| from := from m; to := to m; cc := cc m; bcc := bcc m; subject := subject m;
     replyTo := replyTo m; text := text m; html := html m;
     attachments := Some v |}.
End Mail.

(** ** Errors, completions, promises *)

Record INode : Type := {
  node_name : string
}.

(** What a [throw] can carry in this file. *)
Inductive Thrown : Type :=
| HostError (payload : JsonObject)
| TypeError (message : string)
| NodeApiError (node : INode) (payload : JsonObject).

Inductive Completion (A : Type) : Type :=
| Return (a : A)
| Throw (e : Thrown).
Arguments Return {A} a.
Arguments Throw {A} e.

(** A [PromiseSettledResult]. *)
Inductive PromiseSettledResult : Type :=
| fulfilled (value : JsonObject)
| rejected (reason : JsonObject).

(** One call [transporter.sendMail(mailOptions)], tagged with the index of
    the item whose iteration made it. *)
Record SendCall : Type := {
  call_item : nat;
  call_transporter : Transporter;
  call_mail : Mail.t
}.

(** The execution context [this]. [getNodeParameter] stands for the calls
    cast to [string] (the fallback of the [text] and [html] calls is the
    host's business); [getNodeParameter_options] for
    [getNodeParameter('options', itemIndex, {}) as EmailSendOptions]. *)
Record IExecuteFunctions : Type := {
  getInputData : list INodeExecutionData;
  getNodeParameter : string → nat → Completion string;
  getNodeParameter_options : nat → Completion EmailSendOptions.t;
  getCredentials : string → Completion Credentials.t;
  assertBinaryData : nat → string → Completion IBinaryData;
  getBinaryDataBuffer : nat → string → Completion (list Byte.byte);
  continueOnFail : bool;
  getNode : INode
}.

(** ** Effects of the submission loop *)

Inductive Event : Type :=
| EvSleep (ms : Z)
| EvSendMail (call : SendCall).

(** [events] is the history of sleeps and sends, oldest first;
    [sendMailPromises] is the array of that name; [processEnv] is
    [process.env], where Node's process-wide TLS switch lives. *)
Record LoopState : Type := {
  events : list Event;
  sendMailPromises : list SendCall;
  processEnv : gmap string string
}.

Definition M (A : Type) : Type := LoopState → Completion A * LoopState.

Definition ret {A : Type} (a : A) : M A := λ st, (Return a, st).

Definition bind {A B : Type} (m : M A) (k : A → M B) : M B :=
  λ st, match m st with
        | (Return a, st') => k a st'
        | (Throw e, st') => (Throw e, st')
        end.

Notation "'let*' x ':=' m 'in' k" := (bind m (λ x, k))
  (at level 10, x name, m at level 100, k at level 200).
Notation "m ';;;' k" := (bind m (λ _, k))
  (at level 100, k at level 200, right associativity).

(** A call into the host: throws or returns, touches nothing else. *)
Definition call {A : Type} (c : Completion A) : M A := λ st, (c, st).

(** [try { body } catch (error) { handler }]. *)
Definition try_catch (body : M unit) (handler : Thrown → M unit) : M unit :=
  λ st, match body st with
        | (Return a, st') => (Return a, st')
        | (Throw e, st') => handler e st'
        end.

(** [await sleep(ms)]. *)
Definition sleep (ms : Z) : M unit :=
  λ st, (Return tt,
         {| events := events st ++ [EvSleep ms];
            sendMailPromises := sendMailPromises st;
            processEnv := processEnv st |}).

(** [sendMailPromises.push(transporter.sendMail(mailOptions))]. *)
Definition push_sendMail (c : SendCall) : M unit :=
  λ st, (Return tt,
         {| events := events st ++ [EvSendMail c];
            sendMailPromises := sendMailPromises st ++ [c];
            processEnv := processEnv st |}).

(** ** configureTransport *)

Definition connectionOptions (credentials : Credentials.t)
    (options : EmailSendOptions.t) : SMTPTransport.Options :=
  {| SMTPTransport.host := Credentials.host credentials;
     SMTPTransport.port := Credentials.port credentials;
     SMTPTransport.secure := Credentials.secure credentials;
     SMTPTransport.auth :=
       if truthy (Credentials.user credentials)
          || truthy (Credentials.password credentials)
       then Some {| SMTPTransport.user := Credentials.user credentials;
                    SMTPTransport.pass := Credentials.password credentials |}
       else None;
     SMTPTransport.tls :=
       match EmailSendOptions.allowUnauthorizedCerts options with
       | Some true => Some {| SMTPTransport.rejectUnauthorized := false |}
       | _ => None
       end |}.

Definition configureTransport (credentials : Credentials.t)
    (options : EmailSendOptions.t) : M Transporter :=
  ret (createTransport (connectionOptions credentials options)).

(** ** execute: the submission loop *)

Section Execute.

Variable this : IExecuteFunctions.

(** The [for ... of attachmentProperties] loop. *)
Fixpoint attach_loop (itemIndex : nat) (attachmentProperties : list string)
    (attachments : list Attachment) : M (list Attachment) :=
  match attachmentProperties with
  | [] => ret attachments
  | propertyName :: rest =>
      let* binaryData := call (assertBinaryData this itemIndex propertyName) in
      let* buffer := call (getBinaryDataBuffer this itemIndex propertyName) in
      attach_loop itemIndex rest
        (attachments ++ [ {| filename := or_else (fileName binaryData) "unknown";
                             content := buffer;
                             cid := propertyName |} ])
  end.

(** The pacing test of lines 290-291. *)
Definition pacing_due (itemIndex : nat) (batchSize batchInterval : Z) : bool :=
  (0 <? Z.of_nat itemIndex)%Z && (0 <=? batchSize)%Z && (0 <? batchInterval)%Z
  && strict_eq (js_rem (Z.of_nat itemIndex) batchSize) 0.

Definition effective_batchSize (options : EmailSendOptions.t) : Z :=
  nullish (b ← EmailSendOptions.batching options; c ← batch b; batchSize c) 1%Z.

Definition effective_batchInterval (options : EmailSendOptions.t) : Z :=
  nullish (b ← EmailSendOptions.batching options; c ← batch b; batchInterval c) 1000%Z.

(** The body of the [try] block for one item. *)
Definition process_item (itemIndex : nat) (item : INodeExecutionData) : M unit :=
  let* fromEmail := call (getNodeParameter this "fromEmail" itemIndex) in
  let* toEmail := call (getNodeParameter this "toEmail" itemIndex) in
  let* subject := call (getNodeParameter this "subject" itemIndex) in
  let* emailFormat := call (getNodeParameter this "emailFormat" itemIndex) in
  let* options := call (getNodeParameter_options this itemIndex) in
  let* credentials := call (getCredentials this "smtp") in
  let* transporter := configureTransport credentials options in
  let mailOptions :=
    {| Mail.from := fromEmail;
       Mail.to := toEmail;
       Mail.cc := EmailSendOptions.ccEmail options;
       Mail.bcc := EmailSendOptions.bccEmail options;
       Mail.subject := subject;
       Mail.replyTo := EmailSendOptions.replyTo options;
       Mail.text := None;
       Mail.html := None;
       Mail.attachments := None |} in
  let* mailOptions :=
    (if String.eqb emailFormat "text"
     then let* v := call (getNodeParameter this "text" itemIndex) in
          ret (Mail.with_text mailOptions v)
     else ret mailOptions) in
  let* mailOptions :=
    (if String.eqb emailFormat "html"
     then let* v := call (getNodeParameter this "html" itemIndex) in
          ret (Mail.with_html mailOptions v)
     else ret mailOptions) in
  let* mailOptions :=
    (if truthy (EmailSendOptions.attachments options) && bool_decide (is_Some (binary item))
     then let attachmentProperties :=
            map trim (split "," (nullish (EmailSendOptions.attachments options) "")) in
          let* attachments := attach_loop itemIndex attachmentProperties [] in
          if (0 <? length attachments)%nat
          then ret (Mail.with_attachments mailOptions attachments)
          else ret mailOptions
     else ret mailOptions) in
  let batchSize := effective_batchSize options in
  let batchInterval := effective_batchInterval options in
  (if pacing_due itemIndex batchSize batchInterval
   then sleep batchInterval
   else ret tt);;;
  push_sendMail {| call_item := itemIndex;
                   call_transporter := transporter;
                   call_mail := mailOptions |}.

(** The first [for] loop: [items] is what is left of the input from
    [itemIndex] on. The [catch] block is empty. *)
Fixpoint submit_loop (itemIndex : nat) (items : list INodeExecutionData) : M unit :=
  match items with
  | [] => ret tt
  | item :: rest =>
      try_catch (process_item itemIndex item) (λ _, ret tt);;;
      submit_loop (S itemIndex) rest
  end.

(** ** execute: the output loop *)

(** The record pushed for a rejected send under [continueOnFail]. *)
Definition error_record (itemIndex : nat) (reason : JsonObject) : INodeExecutionData :=
  {| json := {[ "error" := nullish (reason !! "message") JUndefined ]};
     binary := None;
     pairedItem := Some itemIndex |}.

(** The record pushed for a fulfilled send. *)
Definition success_record (itemIndex : nat) (value : JsonObject) : INodeExecutionData :=
  {| json := value;
     binary := None;
     pairedItem := Some itemIndex |}.

(** What [response!.status] throws when [shift] returned [undefined]. *)
Definition status_of_undefined : Thrown :=
  TypeError "Cannot read properties of undefined (reading 'status')".

(** The second [for] loop, with [remaining = items.length - itemIndex]
    iterations to go. It yields [returnData] as it stands when the loop
    ends, and the exception that ended it, if one did. *)
Fixpoint output_loop (remaining itemIndex : nat)
    (promisesResponses : list PromiseSettledResult)
    (returnData : list INodeExecutionData)
    : list INodeExecutionData * option Thrown :=
  match remaining with
  | O => (returnData, None)
  | S remaining' =>
      match shift promisesResponses with
      | (None, _) => (returnData, Some status_of_undefined)
      | (Some (rejected reason), rest) =>
          if continueOnFail this
          then output_loop remaining' (S itemIndex) rest
                 (returnData ++ [error_record itemIndex reason])
          else (returnData, Some (NodeApiError (getNode this) (delete "cert" reason)))
      | (Some (fulfilled value), rest) =>
          output_loop remaining' (S itemIndex) rest
            (returnData ++ [success_record itemIndex value])
      end
  end.

(** Modelled from the spec: [prepareOutputData] of the host, which is not in
    the source file; the records go to the node's single output, so the
    spec's sequence of outcomes is the one inner list. *)
Definition prepareOutputData (outputData : list INodeExecutionData)
    : list (list INodeExecutionData) :=
  [outputData].

Definition initial_state (env : gmap string string) : LoopState :=
  {| events := []; sendMailPromises := []; processEnv := env |}.

(** The state in which the submission loop leaves the world. *)
Definition submitted (env : gmap string string) : LoopState :=
  snd (submit_loop 0 (getInputData this) (initial_state env)).

(** [sendMail] tells how the transport settles each call; [order] is the
    order in which the promises settle. [None]: [execute] never returns,
    because some send never settles. *)
Definition execute (sendMail : SendCall → PromiseSettledResult)
    (order : list nat) (env : gmap string string)
    : option (Completion (list (list INodeExecutionData))) :=
  let items := getInputData this in
  match submit_loop 0 items (initial_state env) with
  | (Throw e, _) => Some (Throw e)
  | (Return _, st) =>
      match allSettled (map sendMail (sendMailPromises st)) order with
      | None => None
      | Some promisesResponses =>
          match output_loop (length items) 0 promisesResponses [] with
          | (returnData, None) => Some (Return (prepareOutputData returnData))
          | (_, Some e) => Some (Throw e)
          end
      end
  end.

End Execute.

(** ** Vocabulary of the statements *)

(** What one iteration that reaches [push] adds to the history: the pacing
    sleep, when it is due, and then the send. *)
Definition item_events (itemIndex : nat) (options : EmailSendOptions.t)
    (c : SendCall) : list Event :=
  (if pacing_due itemIndex (effective_batchSize options) (effective_batchInterval options)
   then [EvSleep (effective_batchInterval options)]
   else [])
  ++ [EvSendMail c].

(** The state after an iteration that reaches [push]. *)
Definition after (st : LoopState) (itemIndex : nat) (options : EmailSendOptions.t)
    (c : SendCall) : LoopState :=
  {| events := events st ++ item_events itemIndex options c;
     sendMailPromises := sendMailPromises st ++ [c];
     processEnv := processEnv st |}.

(** [attachment_of this i name a]: [a] is the attachment built from the
    binary property [name] of item [i]. *)
Definition attachment_of (this : IExecuteFunctions) (itemIndex : nat)
    (propertyName : string) (a : Attachment) : Prop :=
  cid a = propertyName ∧
  ∃ binaryData,
    assertBinaryData this itemIndex propertyName = Return binaryData ∧
    filename a = or_else (fileName binaryData) "unknown" ∧
    getBinaryDataBuffer this itemIndex propertyName = Return (content a).

(** The names the attachments spec of [options] lists. *)
Definition attachmentProperties (options : EmailSendOptions.t) : list string :=
  map trim (split "," (nullish (EmailSendOptions.attachments options) "")).

(** The guard of line 264. *)
Definition wants_attachments (options : EmailSendOptions.t)
    (item : INodeExecutionData) : bool :=
  truthy (EmailSendOptions.attachments options) && bool_decide (is_Some (binary item)).

(** [host_threw this i options? e]: some call into the host made for item
    [i] threw [e]. *)
Definition host_threw (this : IExecuteFunctions) (itemIndex : nat) (e : Thrown) : Prop :=
  (∃ name, getNodeParameter this name itemIndex = Throw e) ∨
  getNodeParameter_options this itemIndex = Throw e ∨
  getCredentials this "smtp" = Throw e ∨
  (∃ propertyName,
     assertBinaryData this itemIndex propertyName = Throw e ∨
     getBinaryDataBuffer this itemIndex propertyName = Throw e).

(** [prepared this i item options c]: [c] is the call the iteration for item
    [i] makes, given that its options resolved to [options]. *)
Definition prepared (this : IExecuteFunctions) (itemIndex : nat)
    (item : INodeExecutionData) (options : EmailSendOptions.t) (c : SendCall) : Prop :=
  let mail := call_mail c in
  call_item c = itemIndex ∧
  getNodeParameter_options this itemIndex = Return options ∧
  (∃ credentials,
     getCredentials this "smtp" = Return credentials ∧
     call_transporter c = createTransport (connectionOptions credentials options)) ∧
  getNodeParameter this "fromEmail" itemIndex = Return (Mail.from mail) ∧
  getNodeParameter this "toEmail" itemIndex = Return (Mail.to mail) ∧
  getNodeParameter this "subject" itemIndex = Return (Mail.subject mail) ∧
  Mail.cc mail = EmailSendOptions.ccEmail options ∧
  Mail.bcc mail = EmailSendOptions.bccEmail options ∧
  Mail.replyTo mail = EmailSendOptions.replyTo options ∧
  (∃ emailFormat,
     getNodeParameter this "emailFormat" itemIndex = Return emailFormat ∧
     (if String.eqb emailFormat "text"
      then ∃ v, getNodeParameter this "text" itemIndex = Return v ∧ Mail.text mail = Some v
      else Mail.text mail = None) ∧
     (if String.eqb emailFormat "html"
      then ∃ v, getNodeParameter this "html" itemIndex = Return v ∧ Mail.html mail = Some v
      else Mail.html mail = None)) ∧
  (if wants_attachments options item
   then ∃ attachments,
          Mail.attachments mail = Some attachments ∧
          Forall2 (attachment_of this itemIndex) (attachmentProperties options) attachments
   else Mail.attachments mail = None).

(** The iteration for item [i] throws (and is swallowed by the [catch]). *)
Definition item_throws (this : IExecuteFunctions) (itemIndex : nat)
    (item : INodeExecutionData) : bool :=
  match fst (process_item this itemIndex item (initial_state ∅)) with
  | Return _ => false
  | Throw _ => true
  end.

(** The indices of the items whose iteration throws, from [itemIndex] on. *)
Fixpoint skipped_from (this : IExecuteFunctions) (itemIndex : nat)
    (items : list INodeExecutionData) : list nat :=
  match items with
  | [] => []
  | item :: rest =>
      if item_throws this itemIndex item
      then itemIndex :: skipped_from this (S itemIndex) rest
      else skipped_from this (S itemIndex) rest
  end.

Definition skipped (this : IExecuteFunctions) : list nat :=
  skipped_from this 0 (getInputData this).

(** The record the output loop pushes for a settled send. *)
Definition record_of (itemIndex : nat) (r : PromiseSettledResult) : INodeExecutionData :=
  match r with
  | fulfilled value => success_record itemIndex value
  | rejected reason => error_record itemIndex reason
  end.

Definition is_rejected (r : PromiseSettledResult) : bool :=
  match r with
  | rejected _ => true
  | fulfilled _ => false
  end.

(** Every one of the first [n] promises settles at some point of [order]. *)
Definition all_settle (n : nat) (order : list nat) : Prop :=
  Forall (λ k, k ∈ order) (seq 0 n).

(** The history with each send reduced to the index of its item. *)
Definition timeline (history : list Event) : list (Z + nat) :=
  map (λ ev, match ev with
             | EvSleep ms => inl ms
             | EvSendMail c => inr (call_item c)
             end) history.

(** [returnData] and the exception, if any, with which the output loop of a
    run ends. *)
Definition output_run (this : IExecuteFunctions)
    (sendMail : SendCall → PromiseSettledResult) (env : gmap string string)
    : list INodeExecutionData * option Thrown :=
  output_loop this (length (getInputData this)) 0
    (map sendMail (sendMailPromises (submitted this env))) [].

(** [iterations this i items done]: running the submission loop on [items],
    the first of which has index [i], the iterations that reach [push] are
    those of [done], in order, each with the options it resolved and the
    call it pushed; the others threw before any effect. *)
Inductive iterations (this : IExecuteFunctions)
    : nat → list INodeExecutionData → list (EmailSendOptions.t * SendCall) → Prop :=
| iterations_end (itemIndex : nat) :
    iterations this itemIndex [] []
| iterations_skip (itemIndex : nat) (item : INodeExecutionData)
    (rest : list INodeExecutionData) (done : list (EmailSendOptions.t * SendCall))
    (e : Thrown) :
    (∀ st, process_item this itemIndex item st = (Throw e, st)) →
    host_threw this itemIndex e →
    iterations this (S itemIndex) rest done →
    iterations this itemIndex (item :: rest) done
| iterations_send (itemIndex : nat) (item : INodeExecutionData)
    (rest : list INodeExecutionData) (done : list (EmailSendOptions.t * SendCall))
    (options : EmailSendOptions.t) (c : SendCall) :
    (∀ st, process_item this itemIndex item st
           = (Return tt, after st itemIndex options c)) →
    prepared this itemIndex item options c →
    iterations this (S itemIndex) rest done →
    iterations this itemIndex (item :: rest) ((options, c) :: done).

(** The state after the iterations of [done]. *)
Definition after_all (st : LoopState) (done : list (EmailSendOptions.t * SendCall))
    : LoopState :=
  foldl (λ st oc, after st (call_item (snd oc)) (fst oc) (snd oc)) st done.

(** The records the output loop builds from the settled results, the first
    of them for index [itemIndex]. *)
Definition records_from (itemIndex : nat) (responses : list PromiseSettledResult)
    : list INodeExecutionData :=
  imap (λ k r, record_of (itemIndex + k) r) responses.

(** ** Worked inputs *)

Definition plain_item : INodeExecutionData :=
  {| json := ∅; binary := None; pairedItem := None |}.

Definition item_with (files : gmap string IBinaryData) : INodeExecutionData :=
  {| json := ∅; binary := Some files; pairedItem := None |}.

Definition png (name : option string) : IBinaryData :=
  {| data := "iVBORw0KGgo="; mimeType := "image/png"; fileName := name |}.

Definition options_with (spec : option string) (b : option Batching)
    : EmailSendOptions.t :=
  {| EmailSendOptions.allowUnauthorizedCerts := None;
     EmailSendOptions.attachments := spec;
     EmailSendOptions.ccEmail := None;
     EmailSendOptions.bccEmail := None;
     EmailSendOptions.replyTo := None;
     EmailSendOptions.batching := b |}.

Definition batching_of (size interval : option Z) : option Batching :=
  Some {| batch := Some {| batchSize := size; batchInterval := interval |} |}.

Definition smtp_credentials : Credentials.t :=
  {| Credentials.host := "smtp.example.com";
     Credentials.port := 465;
     Credentials.secure := true;
     Credentials.user := Some "nathan";
     Credentials.password := Some "hunter2" |}.

Definition host_error (message : string) : Thrown :=
  HostError {[ "message" := JString message ]}.

(** A host that looks binary properties up in the items themselves and
    throws when the item has no binary data or no such property. *)
Definition lookup_binary (items : list INodeExecutionData) (itemIndex : nat)
    (propertyName : string) : Completion IBinaryData :=
  match items !! itemIndex with
  | Some item =>
      match binary item with
      | Some files =>
          match files !! propertyName with
          | Some binaryData => Return binaryData
          | None => Throw (host_error "no binary file of that name")
          end
      | None => Throw (host_error "no binary data")
      end
  | None => Throw (host_error "no such item")
  end.

(** A host whose parameters are the same for every item, except that
    [toEmail] fails to resolve on the items listed in [failing]. *)
Definition table_host (items : list INodeExecutionData) (failing : list nat)
    (emailFormat : string) (options : nat → EmailSendOptions.t)
    (continue : bool) : IExecuteFunctions :=
  {| getInputData := items;
     getNodeParameter := λ name itemIndex,
       if String.eqb name "toEmail" && bool_decide (itemIndex ∈ failing)
       then Throw (host_error "toEmail is required")
       else if String.eqb name "fromEmail" then Return "admin@example.com"
       else if String.eqb name "toEmail" then Return "info@example.com"
       else if String.eqb name "subject" then Return "My subject line"
       else if String.eqb name "emailFormat" then Return emailFormat
       else if String.eqb name "text" then Return "plain body"
       else if String.eqb name "html" then Return "<p>body</p>"
       else Throw (host_error "unknown parameter");
     getNodeParameter_options := λ itemIndex, Return (options itemIndex);
     getCredentials := λ _, Return smtp_credentials;
     assertBinaryData := lookup_binary items;
     getBinaryDataBuffer := λ itemIndex propertyName,
       match lookup_binary items itemIndex propertyName with
       | Return binaryData => Return (list_byte_of_string (data binaryData))
       | Throw e => Throw e
       end;
     continueOnFail := continue;
     getNode := {| node_name := "Send Email" |} |}.

Definition refused : JsonObject :=
  <[ "message" := JString "connect ECONNREFUSED" ]> {[ "cert" := JString "MIIC" ]}.

Definition receipt : JsonObject :=
  {[ "response" := JString "250 OK" ]}.

(** A transport that rejects exactly the sends of the items in [bad]. *)
Definition reject_items (bad : list nat) (c : SendCall) : PromiseSettledResult :=
  if bool_decide (call_item c ∈ bad) then rejected refused else fulfilled receipt.

(** [n] plain items; [toEmail] fails on the items of [failing]. *)
Definition plain_host (n : nat) (failing : list nat) (continue : bool)
    : IExecuteFunctions :=
  table_host (replicate n plain_item) failing "text" (λ _, options_with None None) continue.

(** Five items sent in batches of two, 100 ms apart. *)
Definition paced_host : IExecuteFunctions :=
  table_host (replicate 5 plain_item) [] "text"
    (λ _, options_with None (batching_of (Some 2%Z) (Some 100%Z))) true.

(** Two items with [batchSize] 0, one second apart. *)
Definition zero_batch_host : IExecuteFunctions :=
  table_host (replicate 2 plain_item) [] "text"
    (λ _, options_with None (batching_of (Some 0%Z) (Some 1000%Z))) true.

(** One item with two binary properties, the second without a file name,
    and the attachments spec ["a, b"]. *)
Definition attach_host : IExecuteFunctions :=
  table_host [item_with (<[ "a" := png (Some "logo.png") ]> {[ "b" := png None ]})] []
    "html" (λ _, options_with (Some "a, b") None) true.

(** One item with an attachments spec and no binary data. *)
Definition no_binary_host : IExecuteFunctions :=
  table_host [plain_item] [] "html" (λ _, options_with (Some "a, b") None) true.

(** One item whose binary data has no property of the names of the spec. *)
Definition unmatched_host : IExecuteFunctions :=
  table_host [item_with {[ "c" := png None ]}] [] "html"
    (λ _, options_with (Some "a, b") None) true.

(** ** Further vocabulary *)

(** How many times the character [c] occurs in [s]. *)
Fixpoint occurs (c : ascii) (s : string) : nat :=
  match s with
  | EmptyString => 0
  | String d rest => (if Ascii.eqb d c then 1 else 0) + occurs c rest
  end.

(** The sends of a history, in order. *)
Definition sends_of (history : list Event) : list SendCall :=
  omap (λ ev, match ev with
              | EvSendMail c => Some c
              | EvSleep _ => None
              end) history.

(** The sleeps of a history, in order. *)
Definition sleeps_of (history : list Event) : list Z :=
  omap (λ ev, match ev with
              | EvSleep ms => Some ms
              | EvSendMail _ => None
              end) history.

(** The host [this] with the parameter [name0] resolved by [g] instead. *)
Definition with_parameter (this : IExecuteFunctions) (name0 : string)
    (g : nat → Completion string) : IExecuteFunctions :=
  {| getInputData := getInputData this;
     getNodeParameter := λ name itemIndex,
       if String.eqb name name0 then g itemIndex
       else getNodeParameter this name itemIndex;
     getNodeParameter_options := getNodeParameter_options this;
     getCredentials := getCredentials this;
     assertBinaryData := assertBinaryData this;
     getBinaryDataBuffer := getBinaryDataBuffer this;
     continueOnFail := continueOnFail this;
     getNode := getNode this |}.

(** ** The node's parameters (the [properties] array) *)

Module NodeProperties.

(** A [default] value: a string, a boolean, a number or an object. *)
Inductive DefaultValue : Type :=
| DString (s : string)
| DBool (b : bool)
| DNumber (n : Z)
| DObject (fields : list DefaultField)
with DefaultField : Type :=
| KeyValue (key : string) (value : DefaultValue).

Record TypeOptions : Type := {
  rows : option Z;
  minValue : option Z;
  multipleValues : option bool
}.

(** [displayOptions: { show: { parameter: [values] } }]. *)
Record DisplayOptions : Type := {
  show : list (string * list string)
}.

(** [INodeProperties], and what its [options] array can hold: a choice of
    an [options] parameter, a parameter of a collection, or a named group of
    parameters of a fixed collection. *)
Inductive INodeProperties : Type :=
| NodeProperty (displayName name type : string) (default : DefaultValue)
    (required : option bool) (placeholder description : option string)
    (typeOptions : option TypeOptions) (displayOptions : option DisplayOptions)
    (options : list PropertyOption)
with PropertyOption : Type :=
| Choice (name value : string)
| Member (p : INodeProperties)
| Group (displayName name : string) (values : list INodeProperties).

Definition name (p : INodeProperties) : string :=
  match p with NodeProperty _ n _ _ _ _ _ _ _ _ => n end.

Definition type (p : INodeProperties) : string :=
  match p with NodeProperty _ _ t _ _ _ _ _ _ _ => t end.

Definition default (p : INodeProperties) : DefaultValue :=
  match p with NodeProperty _ _ _ d _ _ _ _ _ _ => d end.

Definition typeOptions (p : INodeProperties) : option TypeOptions :=
  match p with NodeProperty _ _ _ _ _ _ _ o _ _ => o end.

Definition displayOptions (p : INodeProperties) : option DisplayOptions :=
  match p with NodeProperty _ _ _ _ _ _ _ _ o _ => o end.

Definition options (p : INodeProperties) : list PropertyOption :=
  match p with NodeProperty _ _ _ _ _ _ _ _ _ o => o end.

(** The values an [options] parameter offers. *)
Definition choices (p : INodeProperties) : list string :=
  omap (λ o, match o with Choice _ v => Some v | _ => None end) (options p).




Definition rows5 : option TypeOptions :=
  Some {| rows := Some 5%Z; minValue := None; multipleValues := None |}.

Definition min_of (m : Z) : option TypeOptions :=
  Some {| rows := None; minValue := Some m; multipleValues := None |}.

Definition shown_for (format : string) : option DisplayOptions :=
  Some {| show := [("emailFormat", [format])] |}.

Definition dquote : string := String (ascii_of_nat 34) EmptyString.

Definition properties : list INodeProperties :=
  [ NodeProperty "From Email" "fromEmail" "string" (DString "") (Some true)
      (Some "admin@example.com")
      (Some "Email address of the sender. You can also specify a name: Nathan Doe &lt;nate@n8n.io&gt;.")
      None None [];
    NodeProperty "To Email" "toEmail" "string" (DString "") (Some true)
      (Some "info@example.com")
      (Some "Email address of the recipient. You can also specify a name: Nathan Doe &lt;nate@n8n.io&gt;.")
      None None [];
    NodeProperty "Subject" "subject" "string" (DString "") None
      (Some "My subject line") (Some "Subject line of the email") None None [];
    NodeProperty "Email Format" "emailFormat" "options" (DString "text") None None None
      None None [Choice "Text" "text"; Choice "HTML" "html"];
    NodeProperty "Text" "text" "string" (DString "") None None
      (Some "Plain text message of email") rows5 (shown_for "text") [];
    NodeProperty "HTML" "html" "string" (DString "") None None
      (Some "HTML text message of email") rows5 (shown_for "html") [];
    NodeProperty "Options" "options" "collection" (DObject []) None
      (Some "Add Option") None None None
      [ Member
          (NodeProperty "Attachments" "attachments" "string" (DString "") None None
             (Some (String.append
                      "Name of the binary properties that contain data to add to email as attachment. Multiple ones can be comma-separated. Reference embedded images or other content within the body of an email message, e.g. &lt;img src="
                      (String.append dquote
                         (String.append "cid:image_1" (String.append dquote "&gt;")))))
             None None []);
        Member
          (NodeProperty "CC Email" "ccEmail" "string" (DString "") None
             (Some "cc@example.com") (Some "Email address of CC recipient") None None []);
        Member
          (NodeProperty "BCC Email" "bccEmail" "string" (DString "") None
             (Some "bcc@example.com") (Some "Email address of BCC recipient") None None []);
        Member
          (NodeProperty "Ignore SSL Issues" "allowUnauthorizedCerts" "boolean" (DBool false)
             None None
             (Some "Whether to connect even if SSL certificate validation is not possible")
             None None []);
        Member
          (NodeProperty "Reply To" "replyTo" "string" (DString "") None
             (Some "info@example.com") (Some "The email address to send the reply to")
             None None []);
        Member
          (NodeProperty "Batching" "batching" "fixedCollection"
             (DObject [KeyValue "batch" (DObject [])]) None (Some "Add Batching") None
             (Some {| rows := None; minValue := None; multipleValues := Some false |})
             None
             [ Group "Batching" "batch"
                 [ NodeProperty "Items per Batch" "batchSize" "number" (DNumber 50) None None
                     (Some "Input will be split in batches to throttle requests. -1 for disabled. 0 will be treated as 1.")
                     (min_of (-1)) None [];
                   NodeProperty "Batch Interval (ms)" "batchInterval" "number" (DNumber 1000)
                     None None
                     (Some "Time (in milliseconds) between each batch of requests. 0 for disabled.")
                     (min_of 0) None [] ] ]) ] ].


(** The values of [emailFormat] for which [p] is shown; [None] when [p] is
    shown whatever the format. *)
Definition shown_formats (p : INodeProperties) : option (list string) :=
  d ← displayOptions p;
  snd <$> List.find (λ kv, String.eqb (fst kv) "emailFormat") (show d).

End NodeProperties.

(** One item that has the binary property [a] but not [b], with the spec
    ["a, b"]. *)
Definition partial_host : IExecuteFunctions :=
  table_host [item_with {[ "a" := png (Some "logo.png") ]}] [] "html"
    (λ _, options_with (Some "a, b") None) true.

(** * Properties *)

(** ** The JavaScript fragment *)

Lemma split_cons (sep : ascii) (s : string) :
  ∃ w ws, split sep s = w :: ws.
Proof.
  induction s as [|c rest IH]; simpl; [by eauto|].
  destruct (Ascii.eqb c sep); [by eauto|].
  destruct IH as (w & ws & ->). by eauto.
Qed.

Lemma split_length (sep : ascii) (s : string) : 0 < length (split sep s).
Proof. destruct (split_cons sep s) as (w & ws & ->). simpl. lia. Qed.

Example split_a_b : map trim (split "," "a, b") = ["a"; "b"].
Proof. reflexivity. Qed.

Example split_empty : split "," "" = [""].
Proof. reflexivity. Qed.

Example trim_inner :
  trim (String.append "  two words " (String (ascii_of_nat 9) " ")) = "two words".
Proof. reflexivity. Qed.

(** Joining the pieces with the separator gives the string back. *)
Lemma split_concat (sep : ascii) (s : string) :
  String.concat (String sep EmptyString) (split sep s) = s.
Proof.
  induction s as [|c rest IH]; [done|]. simpl split.
  destruct (split_cons sep rest) as (w & ws & Hrest). rewrite Hrest in *.
  destruct (Ascii.eqb_spec c sep) as [->|Hne].
  - change (String sep (String.concat (String sep EmptyString) (w :: ws)) = String sep rest).
    by rewrite IH.
  - rewrite <- IH. by destruct ws.
Qed.

(** No piece contains the separator. *)
Lemma split_pieces (sep : ascii) (s : string) :
  Forall (λ w, String.index 0 (String sep EmptyString) w = None) (split sep s).
Proof.
  induction s as [|c rest IH]; simpl split; [by repeat constructor|].
  destruct (Ascii.eqb_spec c sep) as [->|Hne]; [by constructor|].
  destruct (split sep rest) as [|w ws]; [constructor; [|done]|].
  - simpl. destruct (ascii_dec sep c); [congruence | done].
  - inversion IH as [|? ? Hw Hws]; subst. constructor; [|done].
    simpl. destruct (ascii_dec sep c) as [->|_]; [done|].
    rewrite Hw. by destruct w.
Qed.

Lemma truthy_or_else (o : option string) (d : string) :
  or_else o d = if truthy o then nullish o d else d.
Proof. destruct o as [s|]; simpl; [|done]. by destruct (String.eqb s ""). Qed.

Lemma js_rem_zero_iff (a b : Z) :
  (0 < a)%Z → (0 ≤ b)%Z →
  strict_eq (js_rem a b) 0 = true ↔ (a `mod` b)%Z = 0%Z.
Proof.
  intros Ha Hb. unfold js_rem, strict_eq.
  destruct (Z.eqb_spec b 0) as [->|Hne].
  - rewrite Z.mod_0_r. split; [done | lia].
  - rewrite Z.rem_mod_nonneg by lia. apply Z.eqb_eq.
Qed.

(** Settling in any order fills the slots with the promises' own results. *)
Lemma settle_slots_lookup {R : Type} (promises : list R) (order : list nat)
    (values : list (option R)) (k : nat) :
  length values = length promises →
  (values !! k = Some None ∨ values !! k = Some (promises !! k)) →
  k < length promises →
  foldl (settle_slot promises) values order !! k
  = Some (if bool_decide (k ∈ order) then promises !! k
          else default None (values !! k)).
Proof.
  revert values. induction order as [|j order IH]; intros values Hlen Hk Hlt.
  - simpl. by destruct Hk as [-> | ->].
  - simpl. destruct (decide (j = k)) as [->|Hne].
    + rewrite IH.
      * unfold settle_slot. rewrite list_lookup_insert_eq by lia. simpl.
        rewrite (bool_decide_eq_true_2 (k ∈ k :: order)) by apply list_elem_of_here.
        by case_bool_decide.
      * unfold settle_slot. by rewrite length_insert.
      * right. unfold settle_slot. rewrite list_lookup_insert_eq by lia. done.
      * done.
    + rewrite IH.
      * unfold settle_slot. rewrite list_lookup_insert_ne by done.
        destruct (decide (k ∈ order)) as [Hin|Hnin].
        -- rewrite !bool_decide_eq_true_2; [done | by apply list_elem_of_further | done].
        -- rewrite !bool_decide_eq_false_2; [done | | done].
           intros [?|?]%elem_of_cons; [congruence | done].
      * unfold settle_slot. by rewrite length_insert.
      * unfold settle_slot. rewrite list_lookup_insert_ne by done. done.
      * done.
Qed.

Lemma settle_slots_length {R : Type} (promises : list R) (order : list nat)
    (values : list (option R)) :
  length (foldl (settle_slot promises) values order) = length values.
Proof.
  revert values. induction order as [|j order IH]; intros values; simpl; [done|].
  rewrite IH. unfold settle_slot. by rewrite length_insert.
Qed.

(** When every promise settles, [allSettled] resolves, and the results come
    in the order of the promises, whatever the order of settlement. *)
Lemma allSettled_all_settle {R : Type} (promises : list R) (order : list nat) :
  all_settle (length promises) order →
  allSettled promises order = Some promises.
Proof.
  intros Hall. unfold allSettled. apply mapM_Some.
  assert (∀ k, k < length promises → k ∈ order) as Hin.
  { intros k Hk. eapply Forall_forall in Hall; [done|]. apply elem_of_seq. lia. }
  apply Forall2_same_length_lookup. split.
  - by rewrite settle_slots_length, length_replicate.
  - intros k v r Hv Hr.
    assert (k < length promises) as Hlt by (by eapply lookup_lt_Some).
    rewrite settle_slots_lookup in Hv.
    + rewrite bool_decide_eq_true_2 in Hv by auto. simpl. congruence.
    + by rewrite length_replicate.
    + left. by apply lookup_replicate_2.
    + done.
Qed.

(** A promise that never settles keeps [allSettled] pending. *)
Lemma allSettled_pending {R : Type} (promises : list R) (order : list nat) (k : nat) :
  k < length promises → k ∉ order → allSettled promises order = None.
Proof.
  intros Hlt Hnot. unfold allSettled. apply mapM_None, Exists_exists.
  exists None. split; [|done].
  apply list_elem_of_lookup. exists k.
  rewrite settle_slots_lookup.
  - rewrite bool_decide_eq_false_2 by done.
    by rewrite lookup_replicate_2.
  - by rewrite length_replicate.
  - left. by apply lookup_replicate_2.
  - done.
Qed.

(** ** One iteration of the submission loop *)

Section Iteration.

Variable this : IExecuteFunctions.

(** The attachment loop leaves the state alone; it either throws what the
    host threw on one of the names, or extends the list by one attachment
    per name, in order. *)
Lemma attach_loop_run (itemIndex : nat) (names : list string) (acc : list Attachment) :
  (∃ e, (∀ st, attach_loop this itemIndex names acc st = (Throw e, st)) ∧
        ∃ propertyName,
          assertBinaryData this itemIndex propertyName = Throw e ∨
          getBinaryDataBuffer this itemIndex propertyName = Throw e) ∨
  (∃ added, (∀ st, attach_loop this itemIndex names acc st = (Return (acc ++ added), st)) ∧
            Forall2 (attachment_of this itemIndex) names added).
Proof.
  revert acc. induction names as [|name names IH]; intros acc.
  - right. exists []. split; [|constructor].
    intros st. simpl. by rewrite app_nil_r.
  - simpl. unfold bind, call.
    destruct (assertBinaryData this itemIndex name) as [binaryData|e] eqn:Hassert.
    2:{ left. exists e. split; [done|]. exists name. by left. }
    destruct (getBinaryDataBuffer this itemIndex name) as [buffer|e] eqn:Hbuffer.
    2:{ left. exists e. split; [done|]. exists name. by right. }
    destruct (IH (acc ++ [ {| filename := or_else (fileName binaryData) "unknown";
                              content := buffer; cid := name |} ]))
      as [(e & Hrun & Hwhy) | (added & Hrun & Hall)].
    + left. exists e. split; [done|]. exact Hwhy.
    + right. eexists (_ :: added). split.
      * intros st. rewrite Hrun. by rewrite <- app_assoc.
      * constructor; [|done]. split; [done|]. exists binaryData. by repeat split.
Qed.

(** An iteration either throws what some host call threw, before any effect,
    or performs exactly the effects of [after] for a call that is
    [prepared]. *)
Lemma process_item_run (itemIndex : nat) (item : INodeExecutionData) :
  (∃ e, (∀ st, process_item this itemIndex item st = (Throw e, st)) ∧
        host_threw this itemIndex e) ∨
  (∃ options c,
     (∀ st, process_item this itemIndex item st = (Return tt, after st itemIndex options c)) ∧
     prepared this itemIndex item options c).
Proof.
  unfold process_item, configureTransport, bind, call, ret.
  destruct (getNodeParameter this "fromEmail" itemIndex) as [fromEmail|e] eqn:Hfrom.
  2:{ left. exists e. split; [done|]. left. by exists "fromEmail". }
  destruct (getNodeParameter this "toEmail" itemIndex) as [toEmail|e] eqn:Hto.
  2:{ left. exists e. split; [done|]. left. by exists "toEmail". }
  destruct (getNodeParameter this "subject" itemIndex) as [subject|e] eqn:Hsubject.
  2:{ left. exists e. split; [done|]. left. by exists "subject". }
  destruct (getNodeParameter this "emailFormat" itemIndex) as [emailFormat|e] eqn:Hformat.
  2:{ left. exists e. split; [done|]. left. by exists "emailFormat". }
  destruct (getNodeParameter_options this itemIndex) as [options|e] eqn:Hoptions.
  2:{ left. exists e. split; [done|]. right. by left. }
  destruct (getCredentials this "smtp") as [credentials|e] eqn:Hcred.
  2:{ left. exists e. split; [done|]. right. right. by left. }
  destruct (String.eqb emailFormat "text") eqn:Etext;
    [destruct (getNodeParameter this "text" itemIndex) as [vtext|e] eqn:Htext|];
  try (left; exists e; split; [done|]; left; by exists "text").
  all: destruct (String.eqb emailFormat "html") eqn:Ehtml;
    [destruct (getNodeParameter this "html" itemIndex) as [vhtml|e] eqn:Hhtml|];
  try (left; exists e; split; [done|]; left; by exists "html").
  all: destruct (truthy (EmailSendOptions.attachments options)
                 && bool_decide (is_Some (binary item))) eqn:Hguard.
  all: try destruct (attach_loop_run itemIndex
         (map trim (split "," (nullish (EmailSendOptions.attachments options) ""))) [])
         as [(e & Hrun & Hwhy) | (added & Hrun & Hall)].
  all: try (left; exists e; split;
            [intros st; by rewrite Hrun | right; right; right; exact Hwhy]).
  all: try match goal with
       | Hall : Forall2 _ _ ?added |- _ =>
           assert ((0 <? length added)%nat = true) as Hpos
             by (apply Nat.ltb_lt; rewrite <- (Forall2_length _ _ _ Hall), length_map;
                 apply split_length);
           change ([] ++ added) with added in Hrun
       end.
  all: right; eexists options, _; split;
    [ intros st; rewrite ?Hrun, ?Hpos;
      unfold after, item_events, sleep, push_sendMail;
      destruct (pacing_due itemIndex _ _); cbn; rewrite <- ?app_assoc; reflexivity
    | ].
  all: unfold prepared, wants_attachments, attachmentProperties; cbn;
       rewrite Hguard.
  all: repeat split; eauto.
  all: exists emailFormat; rewrite Etext, Ehtml; repeat split; eauto.
Qed.

(** The completion of an iteration does not depend on the state. *)
Lemma item_throws_true (itemIndex : nat) (item : INodeExecutionData) (e : Thrown) :
  (∀ st, process_item this itemIndex item st = (Throw e, st)) →
  item_throws this itemIndex item = true.
Proof. intros H. unfold item_throws. by rewrite H. Qed.

Lemma item_throws_false (itemIndex : nat) (item : INodeExecutionData)
    (options : EmailSendOptions.t) (c : SendCall) :
  (∀ st, process_item this itemIndex item st = (Return tt, after st itemIndex options c)) →
  item_throws this itemIndex item = false.
Proof. intros H. unfold item_throws. by rewrite H. Qed.

(** The submission loop never throws: it runs the iterations one after the
    other and ends in [after_all]. *)
Lemma submit_loop_run (itemIndex : nat) (items : list INodeExecutionData) :
  ∃ done, iterations this itemIndex items done ∧
          ∀ st, submit_loop this itemIndex items st = (Return tt, after_all st done).
Proof.
  revert itemIndex. induction items as [|item rest IH]; intros itemIndex.
  - exists []. split; [constructor | done].
  - destruct (IH (S itemIndex)) as (done & Hdone & Hrun).
    destruct (process_item_run itemIndex item)
      as [(e & Hthrow & Hwhy) | (options & c & Hsend & Hprep)].
    + exists done. split; [by econstructor|].
      intros st. simpl. unfold bind, try_catch, ret. by rewrite Hthrow, Hrun.
    + exists ((options, c) :: done). split; [by econstructor|].
      intros st. simpl. unfold bind, try_catch. rewrite Hsend, Hrun.
      by destruct Hprep as [-> _].
Qed.

(** *** What the iterations leave in the state *)

Lemma after_all_promises (st : LoopState) (done : list (EmailSendOptions.t * SendCall)) :
  sendMailPromises (after_all st done) = sendMailPromises st ++ map snd done.
Proof.
  revert st. induction done as [|[o c] done IH]; intros st; simpl.
  - by rewrite app_nil_r.
  - unfold after_all in IH. rewrite IH. simpl. by rewrite <- app_assoc.
Qed.

Lemma after_all_events (st : LoopState) (done : list (EmailSendOptions.t * SendCall)) :
  events (after_all st done)
  = events st ++ concat (map (λ oc, item_events (call_item (snd oc)) (fst oc) (snd oc)) done).
Proof.
  revert st. induction done as [|[o c] done IH]; intros st; simpl.
  - by rewrite app_nil_r.
  - unfold after_all in IH. rewrite IH. simpl. by rewrite <- app_assoc.
Qed.

Lemma after_all_processEnv (st : LoopState) (done : list (EmailSendOptions.t * SendCall)) :
  processEnv (after_all st done) = processEnv st.
Proof.
  revert st. induction done as [|[o c] done IH]; intros st; simpl; [done|].
  unfold after_all in IH. by rewrite IH.
Qed.

(** *** Which items the iterations cover *)

Lemma iterations_length (itemIndex : nat) (items : list INodeExecutionData)
    (done : list (EmailSendOptions.t * SendCall)) :
  iterations this itemIndex items done →
  length done + length (skipped_from this itemIndex items) = length items.
Proof.
  induction 1 as [i | i item rest done e Hthrow _ _ IH
                    | i item rest done options c Hsend _ _ IH]; simpl.
  - done.
  - rewrite (item_throws_true _ _ _ Hthrow). simpl. lia.
  - rewrite (item_throws_false _ _ _ _ Hsend). lia.
Qed.

Lemma skipped_from_lower (itemIndex : nat) (items : list INodeExecutionData) (s : nat) :
  s ∈ skipped_from this itemIndex items → itemIndex ≤ s < itemIndex + length items.
Proof.
  revert itemIndex. induction items as [|item rest IH]; intros i; simpl.
  - intros []%elem_of_nil.
  - destruct (item_throws this i item).
    + intros [->|Hin]%elem_of_cons; [lia|]. apply IH in Hin. lia.
    + intros Hin. apply IH in Hin. lia.
Qed.

(** The [k]-th call pushed belongs to an item at index [itemIndex + k] or
    later, and strictly later as soon as an earlier item was skipped. *)
Lemma iterations_lookup (itemIndex : nat) (items : list INodeExecutionData)
    (done : list (EmailSendOptions.t * SendCall)) (k : nat)
    (options : EmailSendOptions.t) (c : SendCall) :
  iterations this itemIndex items done →
  done !! k = Some (options, c) →
  itemIndex + k ≤ call_item c ∧
  (∃ item, items !! (call_item c - itemIndex) = Some item ∧
           prepared this (call_item c) item options c) ∧
  (∀ s, s ∈ skipped_from this itemIndex items → s < call_item c →
        itemIndex + k < call_item c) ∧
  (skipped_from this itemIndex items = [] → call_item c = itemIndex + k).
Proof.
  intros Hit. revert k.
  induction Hit as [i | i item rest done e Hthrow _ _ IH
                      | i item rest done o' c' Hsend Hprep _ IH]; intros k Hk.
  - done.
  - destruct (IH k Hk) as (Hle & (it & Hit' & Hp) & Hlate & Hnone).
    simpl. rewrite (item_throws_true _ _ _ Hthrow).
    repeat split.
    + lia.
    + exists it. split; [|done].
      replace (call_item c - i) with (S (call_item c - S i)) by lia. done.
    + intros s _ _. lia.
    + done.
  - simpl. rewrite (item_throws_false _ _ _ _ Hsend).
    destruct k as [|k]; simpl in Hk.
    + injection Hk as -> ->. destruct Hprep as [Hc Hrest].
      repeat split.
      * lia.
      * exists item. rewrite Hc, Nat.sub_diag. split; [done|].
        by split.
      * intros s Hs%skipped_from_lower Hlt. lia.
      * intros _. lia.
    + destruct (IH k Hk) as (Hle & (it & Hit' & Hp) & Hlate & Hnone).
      repeat split.
      * lia.
      * exists it. split; [|done].
        replace (call_item c - i) with (S (call_item c - S i)) by lia. done.
      * intros s Hs Hlt. specialize (Hlate s Hs Hlt). lia.
      * intros Hno. rewrite (Hnone Hno). lia.
Qed.


(** A skipped item is one for which some call into the host threw. *)
Lemma skipped_from_host_threw (itemIndex : nat) (items : list INodeExecutionData) (s : nat) :
  s ∈ skipped_from this itemIndex items → ∃ e, host_threw this s e.
Proof.
  revert itemIndex. induction items as [|item rest IH]; intros i; simpl.
  - intros []%elem_of_nil.
  - destruct (process_item_run i item)
      as [(e & Hthrow & Hwhy) | (options & c & Hsend & _)].
    + rewrite (item_throws_true _ _ _ Hthrow).
      intros [->|Hin]%elem_of_cons; [by exists e | by eapply IH].
    + rewrite (item_throws_false _ _ _ _ Hsend). apply IH.
Qed.

(** If no call into the host throws, no item is skipped. *)
Lemma quiet_host_skips_nothing :
  (∀ i e, ¬ host_threw this i e) → skipped this = [].
Proof.
  intros Hquiet. unfold skipped.
  destruct (skipped_from this 0 (getInputData this)) as [|s rest] eqn:Hs; [done|].
  destruct (skipped_from_host_threw 0 (getInputData this) s) as [e He].
  - rewrite Hs. apply list_elem_of_here.
  - by destruct (Hquiet s e).
Qed.

End Iteration.

(** ** The output loop *)

Section Output.

Variable this : IExecuteFunctions.

Lemma records_from_cons (itemIndex : nat) (r : PromiseSettledResult)
    (rs : list PromiseSettledResult) :
  records_from itemIndex (r :: rs) = record_of itemIndex r :: records_from (S itemIndex) rs.
Proof.
  unfold records_from. simpl. rewrite Nat.add_0_r. f_equal.
  apply imap_ext. intros k x _. simpl. f_equal. lia.
Qed.

Lemma records_from_lookup (itemIndex k : nat) (rs : list PromiseSettledResult) :
  records_from itemIndex rs !! k = record_of (itemIndex + k) <$> rs !! k.
Proof. unfold records_from. by rewrite list_lookup_imap. Qed.

Lemma records_from_length (itemIndex : nat) (rs : list PromiseSettledResult) :
  length (records_from itemIndex rs) = length rs.
Proof. unfold records_from. by rewrite length_imap. Qed.

(** As long as no rejection ends it, the loop turns the settled results into
    records one by one, and throws when it runs out of results before it
    runs out of items. *)
Lemma output_loop_through (remaining itemIndex : nat)
    (rs : list PromiseSettledResult) (returnData : list INodeExecutionData) :
  continueOnFail this = true ∨ Forall (λ r, is_rejected r = false) rs →
  output_loop this remaining itemIndex rs returnData
  = (returnData ++ records_from itemIndex (take remaining rs),
     if decide (remaining ≤ length rs) then None else Some status_of_undefined).
Proof.
  revert itemIndex rs returnData.
  induction remaining as [|n IH]; intros i rs acc Hok.
  - cbn [output_loop take]. unfold records_from. simpl imap. rewrite app_nil_r.
    case_decide; [done | lia].
  - destruct rs as [|r rs]; cbn [output_loop shift take].
    + unfold records_from. simpl imap. rewrite app_nil_r.
      case_decide; [simpl in *; lia | done].
    + assert (continueOnFail this = true ∨ Forall (λ r, is_rejected r = false) rs) as Hok'.
      { destruct Hok as [?|Hall]; [by left|right]. by inversion Hall. }
      rewrite records_from_cons.
      assert ((if decide (S n ≤ length (r :: rs)) then None else Some status_of_undefined)
              = (if decide (n ≤ length rs) then None else Some status_of_undefined)) as ->.
      { simpl length. repeat case_decide; (done || lia). }
      destruct r as [value|reason].
      * rewrite IH by done. by rewrite <- app_assoc.
      * destruct Hok as [Hcont|Hall].
        -- rewrite Hcont, IH by done. by rewrite <- app_assoc.
        -- inversion Hall; simplify_eq/=.
Qed.

(** Without [continueOnFail], the first rejected result in the order of the
    array ends the loop with a [NodeApiError] that carries its reason, less
    [cert]. *)
Lemma output_loop_first_rejected (remaining itemIndex : nat)
    (pre post : list PromiseSettledResult) (reason : JsonObject)
    (returnData : list INodeExecutionData) :
  continueOnFail this = false →
  Forall (λ r, is_rejected r = false) pre →
  length pre < remaining →
  output_loop this remaining itemIndex (pre ++ rejected reason :: post) returnData
  = (returnData ++ records_from itemIndex pre,
     Some (NodeApiError (getNode this) (delete "cert" reason))).
Proof.
  intros Hstop. revert remaining itemIndex returnData.
  induction pre as [|r pre IH]; intros n i acc Hpre Hlen.
  - destruct n as [|n]; [simpl in Hlen; lia|]. simpl.
    by rewrite Hstop, app_nil_r.
  - destruct n as [|n]; [simpl in Hlen; lia|].
    inversion Hpre as [|? ? Hr Hpre']; subst.
    destruct r as [value|bad]; [|done]. simpl.
    rewrite IH by (done || simpl in Hlen; lia).
    by rewrite records_from_cons, <- app_assoc.
Qed.

Lemma first_rejected (rs : list PromiseSettledResult) :
  Exists (λ r, is_rejected r = true) rs →
  ∃ pre reason post,
    rs = pre ++ rejected reason :: post ∧ Forall (λ r, is_rejected r = false) pre.
Proof.
  induction rs as [|r rs IH]; intros Hex; [by inversion Hex|].
  destruct r as [value|reason].
  - inversion Hex as [? ? Hr|? ? Hrest]; subst; [done|].
    destruct (IH Hrest) as (pre & reason & post & -> & Hpre).
    exists (fulfilled value :: pre), reason, post. split; [done|].
    by constructor.
  - exists [], reason, rs. by split.
Qed.

(** *** execute as a whole *)

Lemma submitted_run (env : gmap string string) :
  ∃ done, iterations this 0 (getInputData this) done ∧
          submit_loop this 0 (getInputData this) (initial_state env)
          = (Return tt, after_all (initial_state env) done) ∧
          sendMailPromises (submitted this env) = map snd done ∧
          events (submitted this env)
          = concat (map (λ oc, item_events (call_item (snd oc)) (fst oc) (snd oc)) done) ∧
          processEnv (submitted this env) = env.
Proof.
  destruct (submit_loop_run this 0 (getInputData this)) as (done & Hit & Hrun).
  exists done. unfold submitted. rewrite Hrun. simpl.
  by rewrite after_all_promises, after_all_events, after_all_processEnv.
Qed.

(** Once every send settles, [execute] returns or throws as the output loop
    does, whatever the order of settlement. *)
Lemma execute_settled (sendMail : SendCall → PromiseSettledResult)
    (order : list nat) (env : gmap string string) :
  all_settle (length (sendMailPromises (submitted this env))) order →
  execute this sendMail order env
  = Some (match output_run this sendMail env with
          | (returnData, None) => Return (prepareOutputData returnData)
          | (_, Some e) => Throw e
          end).
Proof.
  intros Hall. unfold execute, output_run.
  destruct (submitted_run env) as (done & _ & Hrun & Hpromises & _).
  unfold submitted in *. rewrite Hrun in *. simpl in *.
  rewrite allSettled_all_settle by (by rewrite length_map).
  by destruct (output_loop _ _ _ _ _) as [returnData [e|]].
Qed.

(** If some send never settles, [execute] never returns. *)
Lemma execute_pending (sendMail : SendCall → PromiseSettledResult)
    (order : list nat) (env : gmap string string) (k : nat) :
  k < length (sendMailPromises (submitted this env)) → k ∉ order →
  execute this sendMail order env = None.
Proof.
  intros Hk Hnot. unfold execute.
  destruct (submitted_run env) as (done & _ & Hrun & Hpromises & _).
  unfold submitted in *. rewrite Hrun in *. simpl in *.
  by rewrite (allSettled_pending _ _ k) by (by rewrite ?length_map).
Qed.

Lemma promises_le_items (env : gmap string string) :
  length (sendMailPromises (submitted this env)) + length (skipped this)
  = length (getInputData this).
Proof.
  destruct (submitted_run env) as (done & Hit & _ & -> & _).
  rewrite length_map. by apply iterations_length.
Qed.

End Output.

(** ** The message and the pacing of one item *)

Lemma process_item_return (this : IExecuteFunctions) (itemIndex : nat)
    (item : INodeExecutionData) (st st' : LoopState) :
  process_item this itemIndex item st = (Return tt, st') →
  ∃ options c, st' = after st itemIndex options c ∧ prepared this itemIndex item options c.
Proof.
  intros Hrun.
  destruct (process_item_run this itemIndex item)
    as [(e & Hthrow & _) | (options & c & Hsend & Hprep)].
  - rewrite Hthrow in Hrun. discriminate.
  - rewrite Hsend in Hrun. injection Hrun as <-. by exists options, c.
Qed.

(** If no host call for the item throws, the item is submitted. *)
Lemma process_item_total (this : IExecuteFunctions) (itemIndex : nat)
    (item : INodeExecutionData) (st : LoopState) :
  (∀ e, ¬ host_threw this itemIndex e) →
  ∃ options c, process_item this itemIndex item st = (Return tt, after st itemIndex options c)
               ∧ prepared this itemIndex item options c.
Proof.
  intros Hquiet.
  destruct (process_item_run this itemIndex item)
    as [(e & _ & Hwhy) | (options & c & Hsend & Hprep)].
  - by destruct (Hquiet e).
  - by exists options, c.
Qed.

Lemma pacing_due_iff (itemIndex : nat) (b t : Z) :
  pacing_due itemIndex b t = true
  ↔ 0 < itemIndex ∧ (0 ≤ b)%Z ∧ (0 < t)%Z ∧ (Z.of_nat itemIndex `mod` b = 0)%Z.
Proof.
  unfold pacing_due. rewrite !andb_true_iff, !Z.ltb_lt, Z.leb_le. split.
  - intros [[[Hi Hb] Ht] Hrem]. apply js_rem_zero_iff in Hrem; [|lia..].
    repeat split; (done || lia).
  - intros (Hi & Hb & Ht & Hmod). repeat split; try lia.
    apply js_rem_zero_iff; (done || lia).
Qed.

Lemma events_after (st : LoopState) (itemIndex : nat) (options : EmailSendOptions.t)
    (c : SendCall) :
  events (after st itemIndex options c)
  = events st ++
    if pacing_due itemIndex (effective_batchSize options) (effective_batchInterval options)
    then [EvSleep (effective_batchInterval options); EvSendMail c]
    else [EvSendMail c].
Proof. unfold after, item_events. simpl. by destruct (pacing_due _ _ _). Qed.

(** C8. [configureTransport] builds its transporter without touching the
    state, in particular not the process environment, and cannot throw. The
    options of the transporter carry the host, port and secure flag of the
    credentials. There is an [auth] section exactly when the user or the
    password is truthy (defined and not the empty string), and it holds
    the user and the password. [allowUnauthorizedCerts === true] puts
    [rejectUnauthorized: false] in the [tls] options of this transporter;
    otherwise there are no [tls] options. *)
Theorem configureTransport_pure (credentials : Credentials.t)
    (options : EmailSendOptions.t) (st : LoopState) :
  ∃ transporter,
    configureTransport credentials options st = (Return transporter, st) ∧
    let o := transport_options transporter in
    SMTPTransport.host o = Credentials.host credentials ∧
    SMTPTransport.port o = Credentials.port credentials ∧
    SMTPTransport.secure o = Credentials.secure credentials ∧
    (is_Some (SMTPTransport.auth o)
     ↔ truthy (Credentials.user credentials) = true
       ∨ truthy (Credentials.password credentials) = true) ∧
    (∀ a, SMTPTransport.auth o = Some a →
          SMTPTransport.user a = Credentials.user credentials ∧
          SMTPTransport.pass a = Credentials.password credentials) ∧
    (SMTPTransport.tls o
     = if bool_decide (EmailSendOptions.allowUnauthorizedCerts options = Some true)
       then Some {| SMTPTransport.rejectUnauthorized := false |}
       else None).
Proof.
  eexists. split; [reflexivity|]. simpl. repeat split.
  - intros [a Ha]. apply orb_true_iff.
    by destruct (truthy (Credentials.user credentials)
                 || truthy (Credentials.password credentials)).
  - intros Hor%orb_true_iff. by rewrite Hor.
  - destruct (_ || _); by simplify_eq.
  - destruct (_ || _); by simplify_eq.
  - by destruct (EmailSendOptions.allowUnauthorizedCerts options) as [[|]|].
Qed.

(** C10. The message of a submitted item has a [text] field exactly when
    [emailFormat] is ['text'], holding the [text] parameter, and an [html]
    field exactly when it is ['html'], holding the [html] parameter; it
    never has both, and for the two declared formats it has exactly one. *)
Theorem body_follows_emailFormat (this : IExecuteFunctions) (itemIndex : nat)
    (item : INodeExecutionData) (st st' : LoopState) :
  process_item this itemIndex item st = (Return tt, st') →
  ∃ options c emailFormat,
    st' = after st itemIndex options c ∧
    getNodeParameter this "emailFormat" itemIndex = Return emailFormat ∧
    let mail := call_mail c in
    (emailFormat = "text" →
       getNodeParameter this "text" itemIndex = Return (nullish (Mail.text mail) "") ∧
       is_Some (Mail.text mail) ∧ Mail.html mail = None) ∧
    (emailFormat = "html" →
       getNodeParameter this "html" itemIndex = Return (nullish (Mail.html mail) "") ∧
       is_Some (Mail.html mail) ∧ Mail.text mail = None) ∧
    (is_Some (Mail.text mail) ↔ emailFormat = "text") ∧
    (is_Some (Mail.html mail) ↔ emailFormat = "html") ∧
    ¬ (is_Some (Mail.text mail) ∧ is_Some (Mail.html mail)) ∧
    (emailFormat = "text" ∨ emailFormat = "html" →
       (is_Some (Mail.text mail) ∧ Mail.html mail = None)
       ∨ (is_Some (Mail.html mail) ∧ Mail.text mail = None)).
Proof.
  intros Hrun.
  destruct (process_item_return _ _ _ _ _ Hrun) as (options & c & -> & Hprep).
  destruct Hprep as (_ & _ & _ & _ & _ & _ & _ & _ & _ & (fmt & Hfmt & Htext & Hhtml) & _).
  exists options, c, fmt. split; [done|]. split; [done|]. simpl.
  destruct (String.eqb_spec fmt "text") as [Ht|Hnt];
    destruct (String.eqb_spec fmt "html") as [Hh|Hnh]; try congruence.
  - destruct Htext as (v & Hv & ->). rewrite Hhtml. simpl. subst fmt.
    repeat split; try done; try (by eexists); try (by intros [? ?]);
      try (by intros [_ [? ?]]); by left.
  - destruct Hhtml as (v & Hv & ->). rewrite Htext. simpl. subst fmt.
    repeat split; try done; try (by eexists); try (by intros [? ?]);
      try (by intros [[? ?] _]); by right.
  - rewrite Htext, Hhtml.
    repeat split; try done; try (by intros [? ?]); try (by intros [[? ?] _]).
    by intros [?|?].
Qed.

Lemma body_follows_emailFormat_witness :
  process_item paced_host 1 plain_item (initial_state ∅)
  = (Return tt, snd (process_item paced_host 1 plain_item (initial_state ∅))) ∧
  ∃ c emailFormat,
    getNodeParameter paced_host "emailFormat" 1 = Return emailFormat ∧
    (is_Some (Mail.text (call_mail c)) ↔ emailFormat = "text") ∧
    (is_Some (Mail.html (call_mail c)) ↔ emailFormat = "html").
Proof.
  assert (process_item paced_host 1 plain_item (initial_state ∅)
          = (Return tt, snd (process_item paced_host 1 plain_item (initial_state ∅))))
    as Hrun by reflexivity.
  split; [exact Hrun|].
  destruct (body_follows_emailFormat paced_host 1 plain_item _ _ Hrun)
    as (options & c & fmt & _ & Hfmt & Hbody).
  cbv zeta in Hbody. destruct Hbody as (_ & _ & Htext & Hhtml & _).
  by exists c, fmt.
Defined.

(** When the attachments spec is in force and the host throws on one of its
    names, the iteration throws before any effect: no message is passed to
    the transport for that item. *)
Lemma missing_attachment_skips (this : IExecuteFunctions) (itemIndex : nat)
    (item : INodeExecutionData) (st : LoopState) (options : EmailSendOptions.t)
    (propertyName : string) (e : Thrown) :
  getNodeParameter_options this itemIndex = Return options →
  wants_attachments options item = true →
  propertyName ∈ attachmentProperties options →
  assertBinaryData this itemIndex propertyName = Throw e
  ∨ getBinaryDataBuffer this itemIndex propertyName = Throw e →
  ∃ e', process_item this itemIndex item st = (Throw e', st).
Proof.
  intros Hopt Hwants Hin Hthrow.
  destruct (process_item_run this itemIndex item)
    as [(e' & Hrun & _) | (options' & c & _ & Hprep)]; [by exists e'|].
  destruct Hprep as (_ & Hopt' & _ & _ & _ & _ & _ & _ & _ & _ & Hatt).
  assert (options' = options) as -> by congruence.
  rewrite Hwants in Hatt. destruct Hatt as (attachments & _ & Hall).
  apply list_elem_of_lookup in Hin as [k Hk].
  destruct (Forall2_lookup_l _ _ _ _ _ Hall Hk) as (a & _ & _ & binaryData & Hbd & _ & Hbuf).
  destruct Hthrow; congruence.
Qed.

(** C5, as the code has it. Take an item whose options resolve. If a
    message is passed to the transport for it: when the attachments spec is
    truthy and the item has binary data, the message carries one
    attachment per name of the spec, split on commas and trimmed, in order
    (its [cid] is the name, its content the buffer of that binary property,
    its [filename] the file name of the property, or ['unknown'] when the
    property has none or an empty one); when the spec is falsy or the item
    has no binary data, the message has no [attachments] field; the field
    is never an empty list. If the spec is truthy, the item has binary data
    and the host throws on one of the names, as [assertBinaryData] does on
    a missing property, the iteration throws before any effect and no
    message is passed for that item. An item for which no host call throws
    is submitted. With the spec ['a, b'] and the binary properties [a] and
    [b] the attachments are two, with the cids ['a'] and ['b']; with that
    spec and no binary data the one message sent has no attachments
    field; with that spec and binary data that lacks [a] and [b], or [b]
    alone, nothing is sent. *)
Theorem attachments_follow_spec (this : IExecuteFunctions) (itemIndex : nat)
    (item : INodeExecutionData) (st : LoopState) (options : EmailSendOptions.t) :
  getNodeParameter_options this itemIndex = Return options →
  (∀ st', process_item this itemIndex item st = (Return tt, st') →
     ∃ c,
       st' = after st itemIndex options c ∧
       let sent := Mail.attachments (call_mail c) in
       (truthy (EmailSendOptions.attachments options) = true → is_Some (binary item) →
          ∃ spec attachments,
            EmailSendOptions.attachments options = Some spec ∧
            sent = Some attachments ∧
            map cid attachments = map trim (split "," spec) ∧
            Forall (λ a, ∃ binaryData,
                      assertBinaryData this itemIndex (cid a) = Return binaryData ∧
                      getBinaryDataBuffer this itemIndex (cid a) = Return (content a) ∧
                      filename a = (if truthy (fileName binaryData)
                                    then nullish (fileName binaryData) ""
                                    else "unknown"))
                   attachments) ∧
       (truthy (EmailSendOptions.attachments options) = false ∨ binary item = None →
          sent = None) ∧
       sent ≠ Some []) ∧
  (∀ spec propertyName e,
     EmailSendOptions.attachments options = Some spec →
     spec ≠ "" →
     is_Some (binary item) →
     propertyName ∈ map trim (split "," spec) →
     assertBinaryData this itemIndex propertyName = Throw e
     ∨ getBinaryDataBuffer this itemIndex propertyName = Throw e →
     ∃ e', process_item this itemIndex item st = (Throw e', st)) ∧
  ((∀ e, ¬ host_threw this itemIndex e) →
     ∃ st1, process_item this itemIndex item st = (Return tt, st1)) ∧
  map (λ c, (λ a, (cid a, filename a)) <$> default [] (Mail.attachments (call_mail c)))
      (sendMailPromises (submitted attach_host ∅))
  = [[("a", "logo.png"); ("b", "unknown")]] ∧
  map (λ c, Mail.attachments (call_mail c)) (sendMailPromises (submitted no_binary_host ∅))
  = [None] ∧
  sendMailPromises (submitted unmatched_host ∅) = [] ∧
  sendMailPromises (submitted partial_host ∅) = [].
Proof.
  intros Hopt.
  split; [|split; [|split; [|by repeat split]]].
  - intros st' Hrun.
    destruct (process_item_return _ _ _ _ _ Hrun) as (options' & c & -> & Hprep).
    destruct Hprep as (_ & Hopt' & _ & _ & _ & _ & _ & _ & _ & _ & Hatt).
    assert (options' = options) as -> by congruence.
    exists c. split; [done|]. simpl.
    unfold wants_attachments, attachmentProperties in Hatt.
    destruct (truthy (EmailSendOptions.attachments options)) eqn:Htruthy;
      destruct (binary item) as [files|] eqn:Hbin; simpl in Hatt.
    + destruct Hatt as (attachments & -> & Hall).
      assert (length attachments = length (split "," (nullish (EmailSendOptions.attachments options) "")))
        as Hlen by (by rewrite <- (Forall2_length _ _ _ Hall), length_map).
      pose proof (split_length "," (nullish (EmailSendOptions.attachments options) "")) as Hpos.
      repeat split.
      * intros _ _. destruct (EmailSendOptions.attachments options) as [spec|]; [|done].
        exists spec, attachments. simpl in *. repeat split.
        -- clear Hlen Hpos. revert Hall. generalize (map trim (split "," spec)).
           induction attachments as [|a attachments IH]; intros names Hall;
             inversion Hall as [|name ? names' ? [Hcid _] Hrest]; subst; [done|].
           simpl. f_equal. by apply IH.
        -- clear Hlen Hpos. revert Hall. generalize (map trim (split "," spec)).
           induction attachments as [|a attachments IH]; intros names Hall;
             inversion Hall as [|name ? names' ? [Hcid (bd & Hbd & Hfile & Hbuf)] Hrest];
             subst; constructor; [|by eapply IH].
           exists bd. rewrite Hfile, truthy_or_else.
           repeat split; try done. by destruct (fileName bd).
      * by intros [?|?].
      * intros [=->]. simpl in *. lia.
    + rewrite Hatt. by repeat split.
    + rewrite Hatt. by repeat split.
    + rewrite Hatt. by repeat split.
  - intros spec propertyName e Hspec Hne Hbin Hin Hthrow.
    eapply (missing_attachment_skips this itemIndex item st options propertyName e);
      [done| |by unfold attachmentProperties; rewrite Hspec|done].
    unfold wants_attachments. rewrite Hspec. simpl.
    destruct (String.eqb_spec spec "") as [|_]; [done|].
    by rewrite bool_decide_eq_true_2.
  - intros Hquiet.
    destruct (process_item_total this itemIndex item st Hquiet) as (options' & c & Hsend & _).
    by eexists.
Qed.

Lemma attachments_follow_spec_witness :
  getNodeParameter_options partial_host 0 = Return (options_with (Some "a, b") None) ∧
  assertBinaryData partial_host 0 "b" = Throw (host_error "no binary file of that name") ∧
  ∃ e', process_item partial_host 0 (item_with {[ "a" := png (Some "logo.png") ]})
          (initial_state ∅)
        = (Throw e', initial_state ∅).
Proof.
  split; [reflexivity|]. split; [reflexivity|].
  destruct (attachments_follow_spec partial_host 0
              (item_with {[ "a" := png (Some "logo.png") ]}) (initial_state ∅)
              (options_with (Some "a, b") None) eq_refl) as (_ & Hmissing & _).
  apply (Hmissing "a, b" "b" (host_error "no binary file of that name")).
  - reflexivity.
  - discriminate.
  - by eexists.
  - simpl. apply list_elem_of_further, list_elem_of_here.
  - left. reflexivity.
Defined.

(** C5 as stated fails: these items have an attachments spec and no
    matching binary data (the first has binary data without [a] and [b],
    the second has [a] but not [b]); [assertBinaryData] throws inside the
    [try], so no message at all is passed to the transport, where the claim
    has a message without an attachments field. *)
Lemma unmatched_spec_sends_no_message :
  (getNodeParameter_options unmatched_host 0 = Return (options_with (Some "a, b") None) ∧
   binary (item_with {[ "c" := png None ]}) = Some {[ "c" := png None ]} ∧
   assertBinaryData unmatched_host 0 "a" = Throw (host_error "no binary file of that name") ∧
   process_item unmatched_host 0 (item_with {[ "c" := png None ]}) (initial_state ∅)
   = (Throw (host_error "no binary file of that name"), initial_state ∅) ∧
   sendMailPromises (submitted unmatched_host ∅) = [] ∧
   events (submitted unmatched_host ∅) = []) ∧
  (assertBinaryData partial_host 0 "a" = Return (png (Some "logo.png")) ∧
   assertBinaryData partial_host 0 "b" = Throw (host_error "no binary file of that name") ∧
   process_item partial_host 0 (item_with {[ "a" := png (Some "logo.png") ]}) (initial_state ∅)
   = (Throw (host_error "no binary file of that name"), initial_state ∅) ∧
   sendMailPromises (submitted partial_host ∅) = [] ∧
   events (submitted partial_host ∅) = []).
Proof. by repeat split. Qed.

(** ** Pacing *)



(** C7, as the code has it. With the batching option unset, the batch size
    used for pacing is 1, not 50, and the interval is 1000 ms; so every
    item but the first is paced. *)
Theorem batching_unset_defaults (options : EmailSendOptions.t) :
  EmailSendOptions.batching options = None →
  effective_batchSize options = 1%Z ∧
  effective_batchInterval options = 1000%Z ∧
  ∀ itemIndex,
    pacing_due itemIndex (effective_batchSize options) (effective_batchInterval options)
    = (0 <? itemIndex).
Proof.
  intros Hunset. unfold effective_batchSize, effective_batchInterval.
  rewrite Hunset. simpl. repeat split.
  intros i. unfold pacing_due, js_rem, strict_eq. simpl.
  rewrite Z.rem_1_r. simpl. rewrite !andb_true_r.
  destruct i as [|i]; [done|]. simpl. by apply Z.ltb_lt.
Qed.

Lemma batching_unset_defaults_witness :
  EmailSendOptions.batching (options_with None None) = None ∧
  effective_batchSize (options_with None None) = 1%Z ∧
  effective_batchInterval (options_with None None) = 1000%Z.
Proof.
  split; [reflexivity|].
  destruct (batching_unset_defaults (options_with None None) eq_refl) as (Hb & Ht & _).
  by split.
Defined.

(** C7 as stated fails: with the batching option unset the batch size is
    not 50, and of two items the second is paced, which batches of 50 would
    not do. *)
Lemma batching_unset_is_not_50 :
  EmailSendOptions.batching (options_with None None) = None ∧
  effective_batchSize (options_with None None) ≠ 50%Z ∧
  timeline (events (submitted (plain_host 2 [] true) ∅)) = [inr 0; inl 1000%Z; inr 1] ∧
  pacing_due 1 50 1000 = false.
Proof. repeat split. discriminate. Qed.

(** C9. An item whose batching has [batchSize] 0 is never preceded by a
    sleep, because [itemIndex % 0] is [NaN] and never [=== 0]; a batch size
    of 1 paces every item but the first, so 0 is not treated as 1. *)
Theorem zero_batchSize_never_paces (this : IExecuteFunctions) (itemIndex : nat)
    (item : INodeExecutionData) (st st' : LoopState)
    (options : EmailSendOptions.t) (b : Batching) (values : Batch) :
  getNodeParameter_options this itemIndex = Return options →
  EmailSendOptions.batching options = Some b →
  batch b = Some values →
  batchSize values = Some 0%Z →
  process_item this itemIndex item st = (Return tt, st') →
  (∃ c, call_item c = itemIndex ∧ events st' = events st ++ [EvSendMail c]) ∧
  (∀ i, strict_eq (js_rem i 0) 0 = false) ∧
  (∀ i t, pacing_due i 0 t = false) ∧
  (∀ i t, 0 < i → (0 < t)%Z → pacing_due i 1 t = true).
Proof.
  intros Hopt Hb Hvalues Hzero Hrun.
  assert (∀ i t, pacing_due i 0 t = false) as Hnever.
  { intros i t. unfold pacing_due, js_rem, strict_eq. simpl. by rewrite andb_false_r. }
  split; [|split; [done|split; [done|]]].
  - destruct (process_item_return _ _ _ _ _ Hrun) as (options' & c & -> & Hprep).
    destruct Hprep as (Hc & Hopt' & _).
    assert (options' = options) as -> by congruence.
    exists c. split; [done|]. rewrite events_after.
    assert (effective_batchSize options = 0%Z) as ->.
    { unfold effective_batchSize. by rewrite Hb; simpl; rewrite Hvalues; simpl; rewrite Hzero. }
    by rewrite Hnever.
  - intros i t Hi Ht. apply pacing_due_iff. rewrite Z.mod_1_r. lia.
Qed.

Lemma zero_batchSize_never_paces_witness :
  process_item zero_batch_host 1 plain_item (initial_state ∅)
  = (Return tt, snd (process_item zero_batch_host 1 plain_item (initial_state ∅))) ∧
  (∃ c, events (snd (process_item zero_batch_host 1 plain_item (initial_state ∅)))
        = [] ++ [EvSendMail c]) ∧
  timeline (events (submitted zero_batch_host ∅)) = [inr 0; inr 1].
Proof.
  assert (process_item zero_batch_host 1 plain_item (initial_state ∅)
          = (Return tt, snd (process_item zero_batch_host 1 plain_item (initial_state ∅))))
    as Hrun by reflexivity.
  split; [exact Hrun|]. split; [|reflexivity].
  destruct (zero_batchSize_never_paces zero_batch_host 1 plain_item _ _
              (options_with None (batching_of (Some 0%Z) (Some 1000%Z)))
              {| batch := Some {| batchSize := Some 0%Z; batchInterval := Some 1000%Z |} |}
              {| batchSize := Some 0%Z; batchInterval := Some 1000%Z |}
              eq_refl eq_refl eq_refl eq_refl Hrun)
    as ((c & _ & Hevents) & _).
  by exists c.
Defined.

(** ** Outcomes *)

Section Outcomes.

Variable this : IExecuteFunctions.
Variable sendMail : SendCall → PromiseSettledResult.
Variable env : gmap string string.

Lemma pairedItem_record_of (itemIndex : nat) (r : PromiseSettledResult) :
  pairedItem (record_of itemIndex r) = Some itemIndex.
Proof. by destruct r. Qed.

(** The [k]-th promise belongs to an item at index [k] or later; strictly
    later when an item before it was skipped; and to item [k] when no item
    was skipped at all. *)
Lemma promises_lookup (k : nat) (c : SendCall) :
  sendMailPromises (submitted this env) !! k = Some c →
  k ≤ call_item c ∧
  (∃ item options, getInputData this !! call_item c = Some item ∧
                   prepared this (call_item c) item options c) ∧
  (∀ s, s ∈ skipped this → s < call_item c → k < call_item c) ∧
  (skipped this = [] → call_item c = k).
Proof.
  destruct (submitted_run this env) as (done & Hit & _ & -> & _).
  rewrite list_lookup_fmap. intros Hk.
  destruct (done !! k) as [[options c']|] eqn:Hdone; simplify_eq/=.
  destruct (iterations_lookup this 0 _ _ _ _ _ Hit Hdone)
    as (Hle & (item & Hitem & Hprep) & Hlate & Hnone).
  rewrite Nat.sub_0_r in Hitem. repeat split.
  - lia.
  - by exists item, options.
  - intros s Hs Hlt. specialize (Hlate s Hs Hlt). lia.
  - intros Hno. by rewrite (Hnone Hno).
Qed.

(** Whatever happens, [returnData] holds the records of a prefix of the
    settled results, the [k]-th paired with [k]. *)
Lemma output_loop_prefix (remaining itemIndex : nat) (rs : list PromiseSettledResult)
    (returnData : list INodeExecutionData) :
  ∃ m, fst (output_loop this remaining itemIndex rs returnData)
       = returnData ++ records_from itemIndex (take m rs).
Proof.
  revert itemIndex rs returnData.
  induction remaining as [|n IH]; intros i rs acc.
  - exists 0. simpl. unfold records_from. simpl. by rewrite app_nil_r.
  - destruct rs as [|r rs]; cbn [output_loop shift].
    + exists 0. simpl. unfold records_from. simpl. by rewrite app_nil_r.
    + destruct r as [value|reason].
      * destruct (IH (S i) rs (acc ++ [success_record i value])) as [m Hm].
        exists (S m). rewrite Hm. simpl take. rewrite records_from_cons.
        by rewrite <- app_assoc.
      * destruct (continueOnFail this).
        -- destruct (IH (S i) rs (acc ++ [error_record i reason])) as [m Hm].
           exists (S m). rewrite Hm. simpl take. rewrite records_from_cons.
           by rewrite <- app_assoc.
        -- exists 0. simpl. unfold records_from. simpl. by rewrite app_nil_r.
Qed.

Lemma output_run_lookup (k : nat) (r : INodeExecutionData) :
  fst (output_run this sendMail env) !! k = Some r →
  ∃ c, sendMailPromises (submitted this env) !! k = Some c ∧
       r = record_of k (sendMail c).
Proof.
  unfold output_run.
  destruct (output_loop_prefix (length (getInputData this)) 0
              (map sendMail (sendMailPromises (submitted this env))) []) as [m ->].
  simpl. rewrite records_from_lookup. simpl.
  intros Hk. destruct (take m _ !! k) as [x|] eqn:Hx; simplify_eq/=.
  apply lookup_take_Some in Hx as [Hx _].
  rewrite list_lookup_fmap in Hx.
  destruct (sendMailPromises (submitted this env) !! k) as [c|]; simplify_eq/=.
  by exists c.
Qed.

(** When no item was skipped and nothing ends the loop early, [execute]
    returns the records of all the sends, in the order of the items. *)
Lemma execute_aligned (order : list nat) :
  skipped this = [] →
  continueOnFail this = true
  ∨ Forall (λ c, is_rejected (sendMail c) = false) (sendMailPromises (submitted this env)) →
  all_settle (length (getInputData this)) order →
  execute this sendMail order env
  = Some (Return [records_from 0 (map sendMail (sendMailPromises (submitted this env)))]).
Proof.
  intros Hnone Hok Hall.
  pose proof (promises_le_items this env) as Hlen. rewrite Hnone in Hlen. simpl in Hlen.
  rewrite execute_settled by (by replace (length _) with (length (getInputData this)) by lia).
  unfold output_run. rewrite output_loop_through.
  - rewrite take_ge by (rewrite length_map; lia).
    rewrite decide_True by (rewrite length_map; lia). done.
  - destruct Hok as [?|Hok]; [by left|right]. by apply Forall_fmap.
Qed.

End Outcomes.

(** C1, as the code has it. When no iteration throws, every send settles,
    and either [continueOnFail] is set or no send is rejected, [execute]
    returns one record per item: the output is as long as the input, the
    record at position [i] is the one built from the send of item [i] and
    has [pairedItem.item = i]; and that holds for every order in which the
    sends settle, with the same output. *)
Theorem execute_one_outcome_per_item (this : IExecuteFunctions)
    (sendMail : SendCall → PromiseSettledResult) (env : gmap string string)
    (order order' : list nat) :
  skipped this = [] →
  continueOnFail this = true
  ∨ Forall (λ c, is_rejected (sendMail c) = false) (sendMailPromises (submitted this env)) →
  all_settle (length (getInputData this)) order →
  all_settle (length (getInputData this)) order' →
  ∃ out,
    execute this sendMail order env = Some (Return [out]) ∧
    execute this sendMail order' env = Some (Return [out]) ∧
    length out = length (getInputData this) ∧
    ∀ i, i < length (getInputData this) →
         ∃ c r, sendMailPromises (submitted this env) !! i = Some c ∧
                call_item c = i ∧
                out !! i = Some r ∧
                r = record_of i (sendMail c) ∧
                pairedItem r = Some i.
Proof.
  intros Hnone Hok Hall Hall'.
  exists (records_from 0 (map sendMail (sendMailPromises (submitted this env)))).
  pose proof (promises_le_items this env) as Hlen. rewrite Hnone in Hlen. simpl in Hlen.
  split; [by apply execute_aligned|]. split; [by apply execute_aligned|].
  split; [rewrite records_from_length, length_map; lia|].
  intros i Hi.
  destruct (lookup_lt_is_Some_2 (sendMailPromises (submitted this env)) i) as [c Hc]; [lia|].
  exists c, (record_of i (sendMail c)).
  destruct (promises_lookup this env i c Hc) as (_ & _ & _ & Halign).
  repeat split; try done.
  - by apply Halign.
  - by rewrite records_from_lookup, list_lookup_fmap, Hc.
  - apply pairedItem_record_of.
Qed.

Lemma execute_one_outcome_per_item_witness :
  skipped (plain_host 3 [] true) = [] ∧
  ∃ out,
    execute (plain_host 3 [] true) (reject_items [1]) [2; 0; 1] ∅ = Some (Return [out]) ∧
    execute (plain_host 3 [] true) (reject_items [1]) [0; 1; 2] ∅ = Some (Return [out]) ∧
    length out = 3.
Proof.
  split; [reflexivity|].
  destruct (execute_one_outcome_per_item (plain_host 3 [] true) (reject_items [1]) ∅
              [2; 0; 1] [0; 1; 2])
    as (out & Hrun & Hrun' & Hlen & _).
  - reflexivity.
  - left. reflexivity.
  - unfold all_settle. simpl. repeat constructor.
  - unfold all_settle. simpl. repeat constructor.
  - by exists out.
Defined.

(** C1 as stated fails: here every parameter of every item resolves, the
    second of three sends is rejected, [continueOnFail] is off, and
    [execute] throws instead of returning three records. *)
Lemma resolved_items_may_yield_no_outcome :
  skipped (plain_host 3 [] false) = [] ∧
  length (sendMailPromises (submitted (plain_host 3 [] false) ∅)) = 3 ∧
  execute (plain_host 3 [] false) (reject_items [1]) [0; 1; 2] ∅
  = Some (Throw (NodeApiError (getNode (plain_host 3 [] false)) (delete "cert" refused))).
Proof. repeat split. Qed.

(** Without [continueOnFail], the output loop of a run with a rejected send
    ends at the first one, in the order of the promises array. *)
Lemma output_run_first_rejected (this : IExecuteFunctions)
    (sendMail : SendCall → PromiseSettledResult) (env : gmap string string) :
  continueOnFail this = false →
  Exists (λ c, is_rejected (sendMail c) = true) (sendMailPromises (submitted this env)) →
  ∃ k c reason,
    sendMailPromises (submitted this env) !! k = Some c ∧
    sendMail c = rejected reason ∧
    (∀ j c', j < k → sendMailPromises (submitted this env) !! j = Some c' →
             is_rejected (sendMail c') = false) ∧
    output_run this sendMail env
    = (records_from 0 (map sendMail (take k (sendMailPromises (submitted this env)))),
       Some (NodeApiError (getNode this) (delete "cert" reason))).
Proof.
  intros Hstop Hex.
  set (promises := sendMailPromises (submitted this env)) in *.
  apply (Exists_fmap sendMail (λ r, is_rejected r = true)) in Hex.
  destruct (first_rejected _ Hex) as (pre & reason & post & Hrs & Hpre).
  change (sendMail <$> promises) with (map sendMail promises) in Hrs.
  assert (length pre < length promises) as Hk.
  { rewrite <- (length_map sendMail promises), Hrs, length_app. simpl. lia. }
  assert (map sendMail promises !! length pre = Some (rejected reason)) as Hat.
  { rewrite Hrs. by rewrite list_lookup_middle. }
  rewrite list_lookup_fmap in Hat.
  destruct (promises !! length pre) as [c|] eqn:Hc; simplify_eq/=.
  assert (pre = map sendMail (take (length pre) promises)) as Htake.
  { change (pre = sendMail <$> take (length pre) promises). rewrite fmap_take.
    change (sendMail <$> promises) with (map sendMail promises).
    by rewrite Hrs, take_app_length. }
  exists (length pre), c, reason. repeat split; try done.
  - intros j c' Hj Hc'.
    assert (map sendMail promises !! j = Some (sendMail c')) as Hj'
      by (by rewrite list_lookup_fmap, Hc').
    rewrite Hrs, lookup_app_l in Hj' by done.
    by eapply Forall_lookup_1 in Hpre.
  - unfold output_run. fold promises. rewrite <- Htake, Hrs.
    rewrite output_loop_first_rejected; [done..|].
    pose proof (promises_le_items this env) as Hlen. fold promises in Hlen. lia.
Qed.

(** C3. Without [continueOnFail], as soon as one send is rejected (and all
    have settled) [execute] throws exactly one [NodeApiError]. It is the one
    for the first rejected
    send in the order of the promises array, whatever the order in which
    the sends settle; its payload is the reason of that send with [cert]
    removed and the other keys as they were. Nothing is returned: the records
    already built for the fulfilled sends before it are lost with
    [returnData]. *)
Theorem first_rejection_is_terminal (this : IExecuteFunctions)
    (sendMail : SendCall → PromiseSettledResult) (env : gmap string string)
    (order order' : list nat) :
  continueOnFail this = false →
  Exists (λ c, is_rejected (sendMail c) = true) (sendMailPromises (submitted this env)) →
  all_settle (length (sendMailPromises (submitted this env))) order →
  all_settle (length (sendMailPromises (submitted this env))) order' →
  ∃ k c reason,
    sendMailPromises (submitted this env) !! k = Some c ∧
    sendMail c = rejected reason ∧
    (∀ j c', j < k → sendMailPromises (submitted this env) !! j = Some c' →
             is_rejected (sendMail c') = false) ∧
    execute this sendMail order env
    = Some (Throw (NodeApiError (getNode this) (delete "cert" reason))) ∧
    execute this sendMail order' env = execute this sendMail order env ∧
    (delete "cert" reason : JsonObject) !! "cert" = None ∧
    (∀ key, key ≠ "cert" → (delete "cert" reason : JsonObject) !! key = reason !! key) ∧
    fst (output_run this sendMail env)
    = records_from 0 (map sendMail (take k (sendMailPromises (submitted this env)))).
Proof.
  intros Hstop Hex Hall Hall'.
  destruct (output_run_first_rejected this sendMail env Hstop Hex)
    as (k & c & reason & Hc & Hreason & Hfirst & Hout).
  exists k, c, reason. repeat split; try done.
  - rewrite execute_settled by done. by rewrite Hout.
  - by rewrite !execute_settled by done.
  - apply lookup_delete_eq.
  - intros key Hkey. by apply lookup_delete_ne.
  - by rewrite Hout.
Qed.

Lemma first_rejection_is_terminal_witness :
  continueOnFail (plain_host 5 [] false) = false ∧
  execute (plain_host 5 [] false) (reject_items [3]) [4; 3; 2; 1; 0] ∅
  = execute (plain_host 5 [] false) (reject_items [3]) [0; 1; 2; 3; 4] ∅ ∧
  ∃ reason,
    execute (plain_host 5 [] false) (reject_items [3]) [0; 1; 2; 3; 4] ∅
    = Some (Throw (NodeApiError (getNode (plain_host 5 [] false)) (delete "cert" reason))).
Proof.
  split; [reflexivity|].
  destruct (first_rejection_is_terminal (plain_host 5 [] false) (reject_items [3]) ∅
              [0; 1; 2; 3; 4] [4; 3; 2; 1; 0])
    as (k & c & reason & _ & _ & _ & Hrun & Hsame & _).
  - reflexivity.
  - vm_compute. do 3 apply Exists_cons_tl. apply Exists_cons_hd. reflexivity.
  - vm_compute. repeat constructor.
  - vm_compute. repeat constructor.
  - split; [exact Hsame|]. by exists reason.
Defined.

(** C4 fails on the code. With [continueOnFail] set, the first of two items
    fails to resolve [toEmail] and the send of the second is rejected: the
    record for that rejection is paired with index 0, not 1, and the
    output loop then reads past the settled results and throws, so
    [execute] returns no record at all. *)
Theorem rejected_send_after_skipped_item :
  continueOnFail (plain_host 2 [0] true) = true ∧
  skipped (plain_host 2 [0] true) = [0] ∧
  map call_item (sendMailPromises (submitted (plain_host 2 [0] true) ∅)) = [1] ∧
  map (reject_items [1]) (sendMailPromises (submitted (plain_host 2 [0] true) ∅))
  = [rejected refused] ∧
  output_run (plain_host 2 [0] true) (reject_items [1]) ∅
  = ([error_record 0 refused], Some status_of_undefined) ∧
  execute (plain_host 2 [0] true) (reject_items [1]) [0] ∅
  = Some (Throw status_of_undefined).
Proof. repeat split. Qed.

(** C6, as the code has it. When the iteration of at least one item throws,
    fewer sends are submitted than there are items and, once they have
    settled, [execute] throws, returning nothing, also under
    [continueOnFail]. The exception is the
    [TypeError] of reading [status] on [undefined], after a record has been
    built for every settled send, when [continueOnFail] is set or no
    submitted send is rejected; when [continueOnFail] is off and a
    submitted send is rejected, it is the [NodeApiError] of the first
    rejected send in the order of the promises array, carrying the reason
    of that send less [cert], and the loop ends there, after the records
    of the fulfilled sends before it. Each record built before the exception is paired with its
    position in the promises array, which is smaller than the index of its
    item as soon as an earlier item was skipped. *)
Theorem skipped_item_breaks_output (this : IExecuteFunctions)
    (sendMail : SendCall → PromiseSettledResult) (env : gmap string string)
    (order : list nat) :
  skipped this ≠ [] →
  all_settle (length (sendMailPromises (submitted this env))) order →
  length (sendMailPromises (submitted this env)) < length (getInputData this) ∧
  (∃ e, execute this sendMail order env = Some (Throw e) ∧
        (continueOnFail this = true
         ∨ Forall (λ c, is_rejected (sendMail c) = false)
             (sendMailPromises (submitted this env)) →
         e = status_of_undefined ∧
         fst (output_run this sendMail env)
         = records_from 0 (map sendMail (sendMailPromises (submitted this env)))) ∧
        (continueOnFail this = false →
         Exists (λ c, is_rejected (sendMail c) = true)
           (sendMailPromises (submitted this env)) →
         ∃ k c reason,
           sendMailPromises (submitted this env) !! k = Some c ∧
           sendMail c = rejected reason ∧
           (∀ j c', j < k → sendMailPromises (submitted this env) !! j = Some c' →
                    is_rejected (sendMail c') = false) ∧
           e = NodeApiError (getNode this) (delete "cert" reason) ∧
           fst (output_run this sendMail env)
           = records_from 0 (map sendMail (take k (sendMailPromises (submitted this env)))))) ∧
  (∀ k r, fst (output_run this sendMail env) !! k = Some r →
          ∃ c, sendMailPromises (submitted this env) !! k = Some c ∧
               r = record_of k (sendMail c) ∧
               pairedItem r = Some k ∧
               k ≤ call_item c ∧
               (∀ s, s ∈ skipped this → s < call_item c → k < call_item c)).
Proof.
  intros Hskip Hall.
  set (promises := sendMailPromises (submitted this env)) in *.
  assert (length promises < length (getInputData this)) as Hfewer.
  { pose proof (promises_le_items this env) as Hlen. fold promises in Hlen.
    destruct (skipped this); [done|]. simpl in Hlen. lia. }
  assert (continueOnFail this = true ∨ Forall (λ c, is_rejected (sendMail c) = false) promises →
          output_run this sendMail env
          = (records_from 0 (map sendMail promises), Some status_of_undefined)) as Hthrough.
  { intros Hok. unfold output_run. fold promises. rewrite output_loop_through.
    - rewrite take_ge by (rewrite length_map; lia).
      rewrite decide_False by (rewrite length_map; lia). done.
    - destruct Hok as [?|Hok]; [by left|right]. by apply Forall_fmap. }
  split; [done|]. split.
  - destruct (continueOnFail this) eqn:Hcont.
    + exists status_of_undefined. rewrite execute_settled, Hthrough by auto.
      split; [done|]. split; [done|]. done.
    + destruct (decide (Forall (λ c, is_rejected (sendMail c) = false) promises))
        as [Hnone|Hsome].
      * exists status_of_undefined. rewrite execute_settled, Hthrough by auto.
        split; [done|]. split; [done|].
        intros _ Hex. exfalso. apply Exists_exists in Hex as (c & Hin & Hrej).
        eapply Forall_forall in Hnone; [|done]. congruence.
      * assert (Exists (λ c, is_rejected (sendMail c) = true) promises) as Hex.
        { apply not_Forall_Exists in Hsome; [|apply _].
          eapply Exists_impl; [done|]. simpl. intros c Hc.
          by destruct (is_rejected (sendMail c)). }
        destruct (output_run_first_rejected this sendMail env Hcont Hex)
          as (j & c & reason & Hc & Hreason & Hfirst & Hout).
        exists (NodeApiError (getNode this) (delete "cert" reason)).
        split; [by rewrite execute_settled, Hout by done|]. split.
        -- intros [?|Hnone]; [done|]. by destruct Hsome.
        -- intros _ _. exists j, c, reason. fold promises.
           repeat split; try done. by rewrite Hout.
  - intros k r Hk.
    destruct (output_run_lookup this sendMail env k r Hk) as (c & Hc & ->).
    destruct (promises_lookup this env k c Hc) as (Hle & _ & Hlate & _).
    exists c. repeat split; try done. apply pairedItem_record_of.
Qed.

Lemma skipped_item_breaks_output_witness :
  skipped (plain_host 2 [0] true) ≠ [] ∧
  length (sendMailPromises (submitted (plain_host 2 [0] true) ∅)) < 2 ∧
  ∃ e, execute (plain_host 2 [0] true) (reject_items [1]) [0] ∅ = Some (Throw e).
Proof.
  split; [discriminate|].
  destruct (skipped_item_breaks_output (plain_host 2 [0] true) (reject_items [1]) ∅ [0])
    as (Hfewer & (e & Hrun & _) & _).
  - discriminate.
  - vm_compute. repeat constructor.
  - split; [exact Hfewer|]. by exists e.
Defined.

(** C6 as stated fails: here the first of two items is skipped and the send
    of the second is rejected with [continueOnFail] off; the output loop
    ends on that rejection, at index 0, with a [NodeApiError]; it never
    shifts past the end of the settled results and never reads [status] on
    [undefined]. *)
Lemma skipped_item_may_end_in_NodeApiError :
  skipped (plain_host 2 [0] false) = [0] ∧
  map (reject_items [1]) (sendMailPromises (submitted (plain_host 2 [0] false) ∅))
  = [rejected refused] ∧
  output_run (plain_host 2 [0] false) (reject_items [1]) ∅
  = ([], Some (NodeApiError (getNode (plain_host 2 [0] false)) (delete "cert" refused))) ∧
  execute (plain_host 2 [0] false) (reject_items [1]) [0] ∅
  ≠ Some (Throw status_of_undefined).
Proof. repeat split. discriminate. Qed.

(** With binary data that has none of the named properties,
    [assertBinaryData] throws inside the [try]: the item is skipped and no
    message is passed to the transport for it. *)
Example unmatched_binary_is_skipped :
  skipped unmatched_host = [0] ∧ sendMailPromises (submitted unmatched_host ∅) = [].
Proof. by split. Qed.

(** * Further properties of [execute] *)

(** ** When [execute] completes, and how *)

Section Completion.

Variable this : IExecuteFunctions.
Variable sendMail : SendCall → PromiseSettledResult.
Variable env : gmap string string.

Lemma not_all_settle (n : nat) (order : list nat) :
  ¬ all_settle n order → ∃ k, k < n ∧ k ∉ order.
Proof.
  unfold all_settle. intros Hnot.
  apply not_Forall_Exists in Hnot; [|apply _].
  apply Exists_exists in Hnot as (k & Hk%elem_of_seq & Hnotin).
  exists k. split; [lia | done].
Qed.

Lemma skipped_nil_iff :
  skipped this = []
  ↔ length (sendMailPromises (submitted this env)) = length (getInputData this).
Proof.
  pose proof (promises_le_items this env) as Hlen. split.
  - intros Hnone. rewrite Hnone in Hlen. simpl in Hlen. lia.
  - intros Heq. apply nil_length_inv. lia.
Qed.

(** How the output loop ends: normally when it has a result for every
    iteration and nothing stops it; with the [TypeError] when the results run
    out; with the [NodeApiError] of a rejected result when [continueOnFail]
    is off. *)
Lemma output_loop_outcome (remaining itemIndex : nat)
    (rs : list PromiseSettledResult) (returnData : list INodeExecutionData) :
  match snd (output_loop this remaining itemIndex rs returnData) with
  | None =>
      remaining ≤ length rs ∧
      (continueOnFail this = true
       ∨ Forall (λ r, is_rejected r = false) (take remaining rs))
  | Some e =>
      (e = status_of_undefined ∧ length rs < remaining)
      ∨ (continueOnFail this = false ∧
         ∃ k reason, k < remaining ∧ rs !! k = Some (rejected reason) ∧
                     e = NodeApiError (getNode this) (delete "cert" reason))
  end.
Proof.
  revert itemIndex rs returnData.
  induction remaining as [|n IH]; intros i rs acc.
  - simpl. split; [lia|]. right. rewrite take_0. constructor.
  - destruct rs as [|r rs]; cbn [output_loop shift].
    + simpl. left. split; [done | lia].
    + destruct r as [value|reason].
      * specialize (IH (S i) rs (acc ++ [success_record i value])).
        destruct (snd (output_loop this n (S i) rs _)) as [e|].
        -- destruct IH as [[-> Hlen] | (Hstop & k & reason & Hk & Hat & ->)].
           ++ left. split; [done | simpl; lia].
           ++ right. split; [done|]. exists (S k), reason. split; [lia|]. by split.
        -- destruct IH as [Hlen Hok]. split; [simpl; lia|].
           destruct Hok as [?|Hok]; [by left|right]. simpl. by constructor.
      * destruct (continueOnFail this) eqn:Hcont.
        -- specialize (IH (S i) rs (acc ++ [error_record i reason])).
           destruct (snd (output_loop this n (S i) rs _)) as [e|].
           ++ destruct IH as [[-> Hlen] | (Hstop & _)]; [|done].
              left. split; [done | simpl; lia].
           ++ destruct IH as [Hlen _]. split; [simpl; lia | by left].
        -- simpl. right. split; [done|]. exists 0, reason. split; [lia|]. by split.
Qed.

(** X4. [execute] completes, by returning or by throwing, exactly when every
    submitted send settles; one send that never settles keeps it pending
    for ever. *)
Theorem execute_completes_iff (order : list nat) :
  is_Some (execute this sendMail order env)
  ↔ all_settle (length (sendMailPromises (submitted this env))) order.
Proof.
  split.
  - intros Hsome.
    destruct (decide (all_settle (length (sendMailPromises (submitted this env))) order))
      as [|Hnot]; [done|].
    apply not_all_settle in Hnot as (k & Hk & Hnotin).
    rewrite (execute_pending this sendMail order env k Hk Hnotin) in Hsome.
    by destruct Hsome.
  - intros Hall. rewrite execute_settled by done. by eexists.
Qed.

Lemma execute_Some_settled (order : list nat)
    (result : Completion (list (list INodeExecutionData))) :
  execute this sendMail order env = Some result →
  result = match output_run this sendMail env with
           | (returnData, None) => Return (prepareOutputData returnData)
           | (_, Some e) => Throw e
           end.
Proof.
  intros Hrun.
  destruct (decide (all_settle (length (sendMailPromises (submitted this env))) order))
    as [Hall|Hnot].
  - rewrite execute_settled in Hrun by done. congruence.
  - apply not_all_settle in Hnot as (k & Hk & Hnotin).
    by rewrite (execute_pending this sendMail order env k Hk Hnotin) in Hrun.
Qed.

(** X2. The only exceptions [execute] lets out are the [TypeError] of reading
    [status] on [undefined], which needs a skipped item, and, with
    [continueOnFail] off, the [NodeApiError] of a rejected send, whose
    payload is the reason of that send less [cert] (the reason itself when
    it has no [cert]). What a host call throws inside the first loop never
    comes out. *)
Theorem execute_throws_only (order : list nat) (e : Thrown) :
  execute this sendMail order env = Some (Throw e) →
  ((e = status_of_undefined ∧ skipped this ≠ [])
   ∨ (continueOnFail this = false ∧
      ∃ c reason, c ∈ sendMailPromises (submitted this env) ∧
                  sendMail c = rejected reason ∧
                  e = NodeApiError (getNode this) (delete "cert" reason) ∧
                  (reason !! "cert" = None → e = NodeApiError (getNode this) reason))) ∧
  ∀ payload, e ≠ HostError payload.
Proof.
  intros Hrun. apply execute_Some_settled in Hrun.
  pose proof (output_loop_outcome (length (getInputData this)) 0
                (map sendMail (sendMailPromises (submitted this env))) []) as Hout.
  unfold output_run in Hrun.
  destruct (output_loop this _ 0 _ []) as [returnData [e'|]]; simpl in Hout; [|done].
  injection Hrun as ->.
  destruct Hout as [[-> Hlen] | (Hstop & k & reason & _ & Hat & ->)].
  - split; [|done]. left. split; [done|].
    rewrite length_map in Hlen. intros Hnone%skipped_nil_iff. lia.
  - split; [|done]. right. split; [done|].
    rewrite list_lookup_fmap in Hat.
    destruct (sendMailPromises (submitted this env) !! k) as [c|] eqn:Hc; simplify_eq/=.
    exists c, reason. split; [by eapply list_elem_of_lookup_2|].
    repeat split; try done. intros Hno. by rewrite delete_id.
Qed.

(** X3. Once every submitted send has settled, [execute] returns normally
    exactly when no item was skipped and either [continueOnFail] is set or
    no send is rejected. *)
Theorem execute_returns_iff (order : list nat) :
  all_settle (length (sendMailPromises (submitted this env))) order →
  (∃ out, execute this sendMail order env = Some (Return out))
  ↔ skipped this = [] ∧
    (continueOnFail this = true
     ∨ Forall (λ c, is_rejected (sendMail c) = false) (sendMailPromises (submitted this env))).
Proof.
  intros Hall. split.
  - intros [out Hrun]. apply execute_Some_settled in Hrun.
    pose proof (output_loop_outcome (length (getInputData this)) 0
                  (map sendMail (sendMailPromises (submitted this env))) []) as Hout.
    unfold output_run in Hrun.
    destruct (output_loop this _ 0 _ []) as [returnData [e'|]]; simpl in Hout; [done|].
    destruct Hout as [Hlen Hok]. rewrite length_map in Hlen.
    pose proof (promises_le_items this env) as Hle.
    assert (skipped this = []) as Hnone by (apply nil_length_inv; lia).
    split; [done|]. destruct Hok as [?|Hok]; [by left|right].
    rewrite take_ge in Hok by (rewrite length_map; lia).
    by apply Forall_fmap in Hok.
  - intros [Hnone Hok]. eexists. apply execute_aligned; [done..|].
    by rewrite <- (proj1 skipped_nil_iff Hnone).
Qed.

(** X1. On an empty input [execute] returns one empty output, whatever the
    host, the transport and the order argument; nothing is sent and nothing
    sleeps. *)
Theorem execute_empty_input (order : list nat) :
  getInputData this = [] →
  execute this sendMail order env = Some (Return [[]]) ∧
  submitted this env = initial_state env.
Proof.
  intros Hempty.
  assert (submitted this env = initial_state env) as Hsub
    by (unfold submitted; by rewrite Hempty).
  split; [|done].
  rewrite execute_settled.
  - unfold output_run. by rewrite Hempty.
  - rewrite Hsub. constructor.
Qed.

End Completion.

Lemma execute_empty_input_witness :
  getInputData (plain_host 0 [] false) = [] ∧
  execute (plain_host 0 [] false) (reject_items []) [7; 7] ∅ = Some (Return [[]]).
Proof.
  split; [reflexivity|].
  by destruct (execute_empty_input (plain_host 0 [] false) (reject_items []) ∅ [7; 7] eq_refl).
Defined.

Lemma execute_throws_only_witness :
  execute (plain_host 3 [] false) (reject_items [1]) [0; 1; 2] ∅
  = Some (Throw (NodeApiError (getNode (plain_host 3 [] false)) (delete "cert" refused))) ∧
  ∀ payload,
    NodeApiError (getNode (plain_host 3 [] false)) (delete "cert" refused)
    ≠ HostError payload.
Proof.
  assert (execute (plain_host 3 [] false) (reject_items [1]) [0; 1; 2] ∅
          = Some (Throw (NodeApiError (getNode (plain_host 3 [] false))
                           (delete "cert" refused)))) as Hrun by reflexivity.
  split; [exact Hrun|].
  by destruct (execute_throws_only (plain_host 3 [] false) (reject_items [1]) ∅
                 [0; 1; 2] _ Hrun).
Defined.

Lemma execute_returns_iff_witness :
  all_settle (length (sendMailPromises (submitted (plain_host 3 [] true) ∅))) [2; 1; 0] ∧
  ∃ out, execute (plain_host 3 [] true) (reject_items [1]) [2; 1; 0] ∅ = Some (Return out).
Proof.
  assert (all_settle (length (sendMailPromises (submitted (plain_host 3 [] true) ∅)))
            [2; 1; 0]) as Hall by (vm_compute; repeat constructor).
  split; [exact Hall|].
  apply (execute_returns_iff (plain_host 3 [] true) (reject_items [1]) ∅ [2; 1; 0] Hall).
  split; [reflexivity | by left].
Defined.

(** ** What is submitted, and in which order *)

Section Submission.

Variable this : IExecuteFunctions.

Lemma iterations_call_items (itemIndex : nat) (items : list INodeExecutionData)
    (done : list (EmailSendOptions.t * SendCall)) :
  iterations this itemIndex items done →
  map (λ oc, call_item (snd oc)) done
  = List.filter (λ i, bool_decide (i ∉ skipped_from this itemIndex items))
      (seq itemIndex (length items)).
Proof.
  induction 1 as [i | i item rest done e Hthrow _ Hit IH
                    | i item rest done options c Hsend Hprep Hit IH].
  - done.
  - cbn [skipped_from length seq List.filter].
    rewrite (item_throws_true _ _ _ _ Hthrow).
    rewrite bool_decide_eq_false_2 by (intros Hn; apply Hn, list_elem_of_here).
    rewrite IH. apply filter_ext_in. intros j Hj%in_seq.
    apply bool_decide_ext. rewrite not_elem_of_cons. split; [|by intros [_ ?]].
    intros Hnot. split; [lia | done].
  - cbn [skipped_from length seq List.filter map].
    rewrite (item_throws_false _ _ _ _ _ Hsend).
    rewrite bool_decide_eq_true_2 by (intros Hin%skipped_from_lower; lia).
    cbn [snd]. destruct Hprep as [Hc _]. by rewrite Hc, IH.
Qed.

(** X5. The sends are submitted in the order of the items, one for each item
    whose iteration did not throw and none for the others. *)
Theorem submitted_in_item_order (env : gmap string string) :
  map call_item (sendMailPromises (submitted this env))
  = List.filter (λ i, bool_decide (i ∉ skipped this)) (seq 0 (length (getInputData this))).
Proof.
  destruct (submitted_run this env) as (done & Hit & _ & -> & _).
  unfold skipped. rewrite <- (iterations_call_items _ _ _ Hit).
  by rewrite map_map.
Qed.

(** X6. Every submitted message carries the sender, recipient and subject
    resolved for the index of its own item, and the cc, bcc and reply-to
    addresses of the options resolved for that index (none where the
    option is unset). *)
Theorem send_carries_own_headers (env : gmap string string) (k : nat) (c : SendCall) :
  sendMailPromises (submitted this env) !! k = Some c →
  getNodeParameter this "fromEmail" (call_item c) = Return (Mail.from (call_mail c)) ∧
  getNodeParameter this "toEmail" (call_item c) = Return (Mail.to (call_mail c)) ∧
  getNodeParameter this "subject" (call_item c) = Return (Mail.subject (call_mail c)) ∧
  ∃ options,
    getNodeParameter_options this (call_item c) = Return options ∧
    Mail.cc (call_mail c) = EmailSendOptions.ccEmail options ∧
    Mail.bcc (call_mail c) = EmailSendOptions.bccEmail options ∧
    Mail.replyTo (call_mail c) = EmailSendOptions.replyTo options.
Proof.
  intros Hc.
  destruct (promises_lookup this env k c Hc) as (_ & (item & options & _ & Hprep) & _).
  destruct Hprep as (_ & Hopt & _ & Hfrom & Hto & Hsubject & Hcc & Hbcc & Hreply & _).
  repeat split; try done. by exists options.
Qed.

(** X7. Every send goes through a transporter of its own, built from the
    smtp credentials and the options of its own item: certificate checks
    are off for a send exactly when [allowUnauthorizedCerts] is [true] in
    the options of that item, whatever the other items ask for. *)
Theorem send_uses_own_transporter (env : gmap string string) (k : nat) (c : SendCall) :
  sendMailPromises (submitted this env) !! k = Some c →
  ∃ credentials options,
    getCredentials this "smtp" = Return credentials ∧
    getNodeParameter_options this (call_item c) = Return options ∧
    call_transporter c = createTransport (connectionOptions credentials options) ∧
    SMTPTransport.host (transport_options (call_transporter c))
    = Credentials.host credentials ∧
    (SMTPTransport.tls (transport_options (call_transporter c))
     = Some {| SMTPTransport.rejectUnauthorized := false |}
     ↔ EmailSendOptions.allowUnauthorizedCerts options = Some true) ∧
    (SMTPTransport.tls (transport_options (call_transporter c)) = None
     ↔ EmailSendOptions.allowUnauthorizedCerts options ≠ Some true).
Proof.
  intros Hc.
  destruct (promises_lookup this env k c Hc) as (_ & (item & options & _ & Hprep) & _).
  destruct Hprep as (_ & Hopt & (credentials & Hcred & Htransport) & _).
  exists credentials, options. rewrite Htransport. simpl.
  repeat split; try done;
    destruct (EmailSendOptions.allowUnauthorizedCerts options) as [[|]|]; done.
Qed.

(** X12. An iteration completes the same way whatever the earlier
    iterations left in the state, and one that throws leaves the state as it
    found it: no sleep and no send for that item. *)
Theorem iteration_frame (itemIndex : nat) (item : INodeExecutionData)
    (st st' : LoopState) :
  fst (process_item this itemIndex item st) = fst (process_item this itemIndex item st') ∧
  (∀ e, fst (process_item this itemIndex item st) = Throw e →
        snd (process_item this itemIndex item st) = st) ∧
  (fst (process_item this itemIndex item st) = Return tt →
   ∃ c, call_item c = itemIndex ∧
        sendMailPromises (snd (process_item this itemIndex item st))
        = sendMailPromises st ++ [c] ∧
        sendMailPromises (snd (process_item this itemIndex item st'))
        = sendMailPromises st' ++ [c]).
Proof.
  destruct (process_item_run this itemIndex item)
    as [(e & Hthrow & _) | (options & c & Hsend & Hprep)].
  - rewrite !Hthrow. by repeat split.
  - rewrite !Hsend. repeat split; try done.
    intros _. exists c. by destruct Hprep as [-> _].
Qed.

End Submission.

Lemma send_carries_own_headers_witness :
  ∃ c, sendMailPromises (submitted (plain_host 2 [0] true) ∅) !! 0 = Some c ∧
       getNodeParameter (plain_host 2 [0] true) "toEmail" (call_item c)
       = Return (Mail.to (call_mail c)).
Proof.
  destruct (sendMailPromises (submitted (plain_host 2 [0] true) ∅) !! 0) as [c|] eqn:Hc;
    [|vm_compute in Hc; discriminate].
  exists c. split; [reflexivity|].
  by destruct (send_carries_own_headers (plain_host 2 [0] true) ∅ 0 c Hc) as (_ & Hto & _).
Defined.

Lemma send_uses_own_transporter_witness :
  ∃ c, sendMailPromises (submitted (plain_host 2 [0] true) ∅) !! 0 = Some c ∧
       SMTPTransport.host (transport_options (call_transporter c)) = "smtp.example.com".
Proof.
  destruct (sendMailPromises (submitted (plain_host 2 [0] true) ∅) !! 0) as [c|] eqn:Hc;
    [|vm_compute in Hc; discriminate].
  exists c. split; [reflexivity|].
  destruct (send_uses_own_transporter (plain_host 2 [0] true) ∅ 0 c Hc)
    as (credentials & options & Hcred & _ & _ & Hhost & _).
  rewrite Hhost. simpl in Hcred. by injection Hcred as <-.
Defined.

(** ** The history of sleeps and sends *)

Section History.

Variable this : IExecuteFunctions.

Lemma iterations_resolved (itemIndex : nat) (items : list INodeExecutionData)
    (done : list (EmailSendOptions.t * SendCall)) :
  iterations this itemIndex items done →
  Forall (λ oc, getNodeParameter_options this (call_item (snd oc)) = Return (fst oc)) done.
Proof.
  induction 1 as [i | i item rest done e _ _ _ IH
                    | i item rest done options c _ Hprep _ IH]; [constructor | done |].
  constructor; [|done]. simpl. destruct Hprep as (-> & Hopt & _). done.
Qed.

Lemma sends_of_app (l1 l2 : list Event) :
  sends_of (l1 ++ l2) = sends_of l1 ++ sends_of l2.
Proof. apply omap_app. Qed.

Lemma sleeps_of_app (l1 l2 : list Event) :
  sleeps_of (l1 ++ l2) = sleeps_of l1 ++ sleeps_of l2.
Proof. apply omap_app. Qed.

Lemma sends_of_item_events (itemIndex : nat) (options : EmailSendOptions.t) (c : SendCall) :
  sends_of (item_events itemIndex options c) = [c].
Proof. unfold item_events. by destruct (pacing_due _ _ _). Qed.

Lemma sleeps_of_item_events (itemIndex : nat) (options : EmailSendOptions.t) (c : SendCall) :
  sleeps_of (item_events itemIndex options c)
  = if pacing_due itemIndex (effective_batchSize options) (effective_batchInterval options)
    then [effective_batchInterval options] else [].
Proof. unfold item_events. by destruct (pacing_due _ _ _). Qed.

(** In a history made of the blocks of [done], a sleep is the first event of
    the block of an item that is due for pacing, and the send of that item
    comes right after it. *)
Lemma sleep_then_send (done : list (EmailSendOptions.t * SendCall)) (k : nat) (ms : Z) :
  concat (map (λ oc, item_events (call_item (snd oc)) (fst oc) (snd oc)) done) !! k
  = Some (EvSleep ms) →
  ∃ options c,
    (options, c) ∈ done ∧
    concat (map (λ oc, item_events (call_item (snd oc)) (fst oc) (snd oc)) done) !! S k
    = Some (EvSendMail c) ∧
    pacing_due (call_item c) (effective_batchSize options) (effective_batchInterval options)
    = true ∧
    ms = effective_batchInterval options.
Proof.
  revert k. induction done as [|[o c] done IH]; intros k; [done|].
  cbn [map concat fst snd]. unfold item_events at 1 3.
  destruct (pacing_due (call_item c) _ _) eqn:Hdue; cbn [app].
  - destruct k as [|[|k]]; cbn [lookup list_lookup].
    + intros [= <-]. exists o, c. split; [apply list_elem_of_here|]. by repeat split.
    + done.
    + intros Hk. destruct (IH k Hk) as (o' & c' & Hin & Hnext & Hdue' & Hms).
      exists o', c'. split; [by apply list_elem_of_further|]. by repeat split.
  - destruct k as [|k]; cbn [lookup list_lookup]; [done|].
    intros Hk. destruct (IH k Hk) as (o' & c' & Hin & Hnext & Hdue' & Hms).
    exists o', c'. split; [by apply list_elem_of_further|]. by repeat split.
Qed.

(** X8. The sends of the history are the promises, in the same order; and a
    sleep is always followed at once by the send of an item that is not the
    first one, lasting the batch interval resolved for that item, which is
    positive. No sleep ends the history and no two sleeps follow each
    other. *)
Theorem history_structure (env : gmap string string) :
  sends_of (events (submitted this env)) = sendMailPromises (submitted this env) ∧
  ∀ k ms,
    events (submitted this env) !! k = Some (EvSleep ms) →
    ∃ c options,
      events (submitted this env) !! S k = Some (EvSendMail c) ∧
      0 < call_item c ∧
      getNodeParameter_options this (call_item c) = Return options ∧
      ms = effective_batchInterval options ∧
      (0 < ms)%Z.
Proof.
  destruct (submitted_run this env) as (done & Hit & _ & -> & -> & _).
  split.
  - clear Hit. induction done as [|[o c] done IH]; [done|].
    cbn [map concat fst snd].
    by rewrite sends_of_app, IH, sends_of_item_events.
  - intros k ms Hk.
    destruct (sleep_then_send done k ms Hk) as (o & c & Hin & Hnext & Hdue & ->).
    pose proof (iterations_resolved _ _ _ Hit) as Hres.
    eapply Forall_forall in Hres; [|done]. simpl in Hres.
    apply pacing_due_iff in Hdue as (Hpos & _ & Ht & _).
    exists c, o. by repeat split.
Qed.

Lemma filter_no_skipped (l : list nat) :
  List.filter (λ i, bool_decide (i ∉ [])) l = l.
Proof.
  induction l as [|i l IH]; [done|]. cbn [List.filter].
  rewrite (bool_decide_eq_true_2 (i ∉ [])) by apply not_elem_of_nil. by rewrite IH.
Qed.

(** How many of the first [n] indices are due for pacing. *)
Lemma pacing_count (b t : Z) (n : nat) :
  (0 < b)%Z → (0 < t)%Z →
  concat (map (λ i, if pacing_due i b t then [t] else []) (seq 0 n))
  = replicate (Z.to_nat ((Z.of_nat n - 1) `div` b)) t.
Proof.
  intros Hb Ht.
  assert (((-1) `div` b)%Z = (-1)%Z) as Hminus
    by (symmetry; apply (Z.div_unique_pos _ _ _ (b - 1)); lia).
  induction n as [|n IH].
  - change (Z.of_nat 0 - 1)%Z with (-1)%Z. by rewrite Hminus.
  - rewrite seq_S, map_app, concat_app, IH. simpl. rewrite app_nil_r.
    replace (Z.of_nat (S n) - 1)%Z with (Z.of_nat n) by lia.
    pose proof (pacing_due_iff n b t) as Hdue.
    pose proof (Z.div_mod (Z.of_nat n) b ltac:(lia)) as Hdiv.
    pose proof (Z.mod_pos_bound (Z.of_nat n) b Hb) as Hmod.
    destruct (pacing_due n b t).
    + destruct (proj1 Hdue eq_refl) as (Hn & _ & _ & Hzero).
      replace ((Z.of_nat n - 1) `div` b)%Z with (Z.of_nat n `div` b - 1)%Z
        by (apply (Z.div_unique_pos _ _ _ (b - 1)); nia).
      assert (1 ≤ Z.of_nat n `div` b)%Z by nia.
      replace (Z.to_nat (Z.of_nat n `div` b)) with (S (Z.to_nat (Z.of_nat n `div` b - 1)))
        by lia.
      by rewrite replicate_S_end.
    + rewrite app_nil_r. f_equal.
      destruct n as [|n].
      * change (Z.of_nat 0 - 1)%Z with (-1)%Z. change (Z.of_nat 0) with 0%Z.
        rewrite Hminus. by rewrite Z.div_0_l by lia.
      * assert ((Z.of_nat (S n) `mod` b)%Z ≠ 0%Z) as Hnz.
        { intros Hz. assert (false = true) as Habs; [|done]. apply Hdue.
          repeat split; lia. }
        f_equal. symmetry.
        apply (Z.div_unique_pos _ _ _ (Z.of_nat (S n) `mod` b - 1)); lia.
Qed.

(** X9. When no item is skipped and every item resolves the same batch size
    [b > 0] and the same interval [t > 0], the run sleeps [(n - 1) / b]
    times for [n] items, [t] milliseconds each time. *)
Theorem uniform_batching_sleeps (env : gmap string string) (b t : Z) :
  skipped this = [] →
  (∀ i options, getNodeParameter_options this i = Return options →
                effective_batchSize options = b ∧ effective_batchInterval options = t) →
  (0 < b)%Z → (0 < t)%Z →
  sleeps_of (events (submitted this env))
  = replicate (Z.to_nat ((Z.of_nat (length (getInputData this)) - 1) `div` b)) t.
Proof.
  intros Hnone Huniform Hb Ht.
  destruct (submitted_run this env) as (done & Hit & _ & _ & -> & _).
  rewrite <- (pacing_count b t) by done.
  pose proof (iterations_call_items this _ _ _ Hit) as Hitems.
  fold (skipped this) in Hitems. rewrite Hnone, filter_no_skipped in Hitems.
  rewrite <- Hitems. rewrite map_map.
  pose proof (iterations_resolved _ _ _ Hit) as Hres.
  clear Hit Hitems. induction done as [|[o c] done IH]; [done|].
  inversion Hres as [|? ? Ho Hres']; subst. simpl in Ho.
  destruct (Huniform _ _ Ho) as [Hsize Hinterval].
  cbn [map concat fst snd].
  rewrite sleeps_of_app, sleeps_of_item_events, Hsize, Hinterval.
  by rewrite IH.
Qed.

End History.

Lemma uniform_batching_sleeps_witness :
  skipped paced_host = [] ∧
  sleeps_of (events (submitted paced_host ∅)) = [100%Z; 100%Z].
Proof.
  split; [reflexivity|].
  rewrite (uniform_batching_sleeps paced_host ∅ 2 100).
  - reflexivity.
  - reflexivity.
  - intros i options [= <-]. by split.
  - lia.
  - lia.
Defined.

(** ** The names of the attachments spec *)

Lemma split_length_occurs (sep : ascii) (s : string) :
  length (split sep s) = S (occurs sep s).
Proof.
  induction s as [|c rest IH]; [done|]. simpl.
  destruct (Ascii.eqb c sep); simpl; [by rewrite IH|].
  destruct (split_cons sep rest) as (w & ws & Hrest). by rewrite Hrest in *.
Qed.

Lemma split_occurs (sep : ascii) (s : string) :
  Forall (λ w, occurs sep w = 0) (split sep s).
Proof.
  induction s as [|c rest IH]; simpl; [by repeat constructor|].
  destruct (Ascii.eqb c sep) eqn:Hc; [by constructor|].
  destruct (split sep rest) as [|w ws]; [repeat constructor; simpl; by rewrite Hc|].
  inversion IH as [|? ? Hw Hws]; subst. constructor; [|done].
  simpl. by rewrite Hc, Hw.
Qed.

Lemma split_no_sep (sep : ascii) (w : string) :
  occurs sep w = 0 → split sep w = [w].
Proof.
  induction w as [|c w IH]; [done|]. simpl.
  destruct (Ascii.eqb c sep); [done|]. simpl. intros Hw. by rewrite IH.
Qed.

Lemma split_app_sep (sep : ascii) (w s : string) :
  occurs sep w = 0 →
  split sep (String.append w (String sep s)) = w :: split sep s.
Proof.
  induction w as [|c w IH]; simpl.
  - intros _. by rewrite Ascii.eqb_refl.
  - destruct (Ascii.eqb c sep); [done|]. simpl. intros Hw. by rewrite IH.
Qed.

Lemma occurs_trimStart (c : ascii) (s : string) :
  occurs c (trimStart s) ≤ occurs c s.
Proof.
  induction s as [|d rest IH]; simpl; [done|].
  destruct (is_white_space d); simpl; lia.
Qed.

Lemma occurs_trimEnd (c : ascii) (s : string) :
  occurs c (trimEnd s) ≤ occurs c s.
Proof.
  induction s as [|d rest IH]; simpl; [done|].
  destruct (trimEnd rest) as [|k kept] eqn:Hkept.
  - destruct (is_white_space d); simpl in *; lia.
  - simpl in *. lia.
Qed.

Lemma occurs_trim (c : ascii) (s : string) :
  occurs c s = 0 → occurs c (trim s) = 0.
Proof.
  intros Hs. unfold trim.
  pose proof (occurs_trimEnd c (trimStart s)). pose proof (occurs_trimStart c s). lia.
Qed.

Lemma trimStart_head (s : string) :
  trimStart s = EmptyString
  ∨ ∃ c rest, trimStart s = String c rest ∧ is_white_space c = false.
Proof.
  induction s as [|c rest IH]; simpl; [by left|].
  destruct (is_white_space c) eqn:Hc; [done|]. right. by exists c, rest.
Qed.

Lemma trimEnd_cons (c : ascii) (s : string) :
  trimEnd (String c s)
  = match trimEnd s with
    | EmptyString => if is_white_space c then EmptyString else String c EmptyString
    | kept => String c kept
    end.
Proof. done. Qed.

Lemma trimEnd_idempotent (s : string) : trimEnd (trimEnd s) = trimEnd s.
Proof.
  induction s as [|c rest IH]; [done|]. rewrite trimEnd_cons.
  destruct (trimEnd rest) as [|k kept] eqn:Hkept.
  - destruct (is_white_space c) eqn:Hc; [done|]. rewrite trimEnd_cons. simpl.
    by rewrite Hc.
  - by rewrite trimEnd_cons, IH.
Qed.

Lemma trim_idempotent (s : string) : trim (trim s) = trim s.
Proof.
  unfold trim.
  destruct (trimStart_head s) as [-> | (c & rest & -> & Hc)]; [done|].
  assert (∃ kept, trimEnd (String c rest) = String c kept) as [kept Hkept].
  { simpl. destruct (trimEnd rest); [rewrite Hc|]; by eexists. }
  rewrite Hkept. cbn [trimStart]. rewrite Hc, <- Hkept.
  apply trimEnd_idempotent.
Qed.

Lemma trim_skips_leading (c : ascii) (s : string) :
  is_white_space c = true → trim (String c s) = trim s.
Proof. intros Hc. unfold trim. simpl. by rewrite Hc. Qed.

(** X10. A submitted item with a truthy attachments spec and binary data
    carries one attachment more than the spec has commas, empty names
    included; no content id contains a comma or has white space at
    either end. *)
Theorem attachments_count (this : IExecuteFunctions) (itemIndex : nat)
    (item : INodeExecutionData) (st st' : LoopState)
    (options : EmailSendOptions.t) (spec : string) :
  process_item this itemIndex item st = (Return tt, st') →
  getNodeParameter_options this itemIndex = Return options →
  EmailSendOptions.attachments options = Some spec →
  spec ≠ "" →
  is_Some (binary item) →
  ∃ c attachments,
    st' = after st itemIndex options c ∧
    Mail.attachments (call_mail c) = Some attachments ∧
    length attachments = S (occurs "," spec) ∧
    Forall (λ a, occurs "," (cid a) = 0 ∧ trim (cid a) = cid a) attachments.
Proof.
  intros Hrun Hopt Hspec Hne Hbin.
  destruct (process_item_return _ _ _ _ _ Hrun) as (options' & c & -> & Hprep).
  destruct Hprep as (_ & Hopt' & _ & _ & _ & _ & _ & _ & _ & _ & Hatt).
  assert (options' = options) as -> by congruence.
  unfold wants_attachments, attachmentProperties in Hatt.
  rewrite Hspec in Hatt. simpl in Hatt.
  destruct (String.eqb_spec spec "") as [|_]; [done|].
  rewrite bool_decide_eq_true_2 in Hatt by done. simpl in Hatt.
  destruct Hatt as (attachments & Hsent & Hall).
  exists c, attachments. split; [done|]. split; [done|]. split.
  - by rewrite <- (Forall2_length _ _ _ Hall), length_map, split_length_occurs.
  - pose proof (split_occurs "," spec) as Hpieces.
    revert Hall Hpieces. generalize (split "," spec). intros pieces.
    clear. revert attachments.
    induction pieces as [|w pieces IH]; intros attachments Hall Hpieces;
      inversion Hall as [|? a ? rest [Hcid _] Hrest]; subst; [constructor|].
    inversion Hpieces as [|? ? Hw Hpieces']; subst.
    constructor; [|by apply IH].
    rewrite Hcid. split; [by apply occurs_trim | apply trim_idempotent].
Qed.

Lemma attachments_count_witness :
  process_item attach_host 0
    (item_with (<[ "a" := png (Some "logo.png") ]> {[ "b" := png None ]})) (initial_state ∅)
  = (Return tt, submitted attach_host ∅) ∧
  ∃ c attachments,
    Mail.attachments (call_mail c) = Some attachments ∧ length attachments = 2.
Proof.
  assert (process_item attach_host 0
            (item_with (<[ "a" := png (Some "logo.png") ]> {[ "b" := png None ]}))
            (initial_state ∅)
          = (Return tt, submitted attach_host ∅)) as Hrun by reflexivity.
  split; [exact Hrun|].
  destruct (attachments_count attach_host 0 _ _ _ (options_with (Some "a, b") None) "a, b" Hrun)
    as (c & attachments & _ & Hsent & Hlen & _).
  - reflexivity.
  - reflexivity.
  - discriminate.
  - by eexists.
  - by exists c, attachments.
Defined.

(** X11. Names without commas and without white space at either end, joined
    with a comma and a space, are read back by the attachments spec as
    they were. *)
Theorem names_round_trip (names : list string) :
  names ≠ [] →
  Forall (λ w, occurs "," w = 0 ∧ trim w = w) names →
  map trim (split "," (String.concat ", " names)) = names.
Proof.
  intros Hne Hnames. induction names as [|w names IH]; [done|].
  inversion Hnames as [|? ? [Hw Htrim] Hrest]; subst.
  destruct names as [|w2 names].
  - cbn [String.concat]. rewrite split_no_sep by done. cbn [map]. by rewrite Htrim.
  - change (String.concat ", " (w :: w2 :: names))
      with (String.append w (String "," (String " " (String.concat ", " (w2 :: names))))).
    rewrite split_app_sep by done. cbn [map]. rewrite Htrim. f_equal.
    transitivity (map trim (split "," (String.concat ", " (w2 :: names))));
      [|by apply IH].
    cbn [split]. change (Ascii.eqb " " ",") with false. cbv iota.
    destruct (split_cons "," (String.concat ", " (w2 :: names))) as (p & ps & ->).
    cbn [map]. by rewrite trim_skips_leading.
Qed.

Lemma names_round_trip_witness :
  String.concat ", " ["image_1"; "report"; "b"] = "image_1, report, b" ∧
  map trim (split "," "image_1, report, b") = ["image_1"; "report"; "b"].
Proof.
  split; [reflexivity|].
  apply (names_round_trip ["image_1"; "report"; "b"]); [discriminate|].
  repeat constructor.
Defined.

(** ** Which parameters an iteration asks for *)

Section Requests.

Variable this : IExecuteFunctions.

Lemma attach_loop_with_parameter (name0 : string) (g : nat → Completion string)
    (itemIndex : nat) (names : list string) (acc : list Attachment) (st : LoopState) :
  attach_loop (with_parameter this name0 g) itemIndex names acc st
  = attach_loop this itemIndex names acc st.
Proof.
  revert acc. induction names as [|n names IH]; intros acc; [done|].
  simpl. unfold bind, call. simpl.
  destruct (assertBinaryData this itemIndex n); [|done].
  destruct (getBinaryDataBuffer this itemIndex n); [|done].
  apply IH.
Qed.

(** The body parameter of the other format is not asked for. *)
Lemma body_parameter_not_requested (p : string) (g : nat → Completion string)
    (itemIndex : nat) (item : INodeExecutionData) (st : LoopState) (emailFormat : string) :
  p = "text" ∨ p = "html" →
  getNodeParameter this "emailFormat" itemIndex = Return emailFormat →
  emailFormat ≠ p →
  process_item (with_parameter this p g) itemIndex item st
  = process_item this itemIndex item st.
Proof.
  intros Hp Hfmt Hne.
  unfold process_item, configureTransport, bind, call, ret.
  destruct Hp as [-> | ->]; cbn [getNodeParameter getNodeParameter_options getCredentials
                                 with_parameter String.eqb Ascii.eqb Bool.eqb];
    rewrite Hfmt;
    destruct (getNodeParameter this "fromEmail" itemIndex); [|done| |done];
    destruct (getNodeParameter this "toEmail" itemIndex); [|done| |done];
    destruct (getNodeParameter this "subject" itemIndex); [|done| |done];
    destruct (getNodeParameter_options this itemIndex) as [options|]; [|done| |done];
    destruct (getCredentials this "smtp"); [|done| |done];
    destruct (String.eqb_spec emailFormat "text");
    destruct (String.eqb_spec emailFormat "html"); try congruence.
  all: try destruct (getNodeParameter this "text" itemIndex); try done.
  all: try destruct (getNodeParameter this "html" itemIndex); try done.
  all: destruct (truthy (EmailSendOptions.attachments options)
                 && bool_decide (is_Some (binary item))); try done.
  all: by rewrite attach_loop_with_parameter.
Qed.

(** The body parameter of the format in force is asked for: if it throws,
    the iteration throws. *)
Lemma body_parameter_requested (p : string) (g : nat → Completion string)
    (itemIndex : nat) (item : INodeExecutionData) (st : LoopState) (e : Thrown) :
  p = "text" ∨ p = "html" →
  getNodeParameter this "emailFormat" itemIndex = Return p →
  g itemIndex = Throw e →
  ∃ e', process_item (with_parameter this p g) itemIndex item st = (Throw e', st).
Proof.
  intros Hp Hfmt Hg.
  unfold process_item, configureTransport, bind, call, ret.
  destruct Hp as [-> | ->]; cbn [getNodeParameter getNodeParameter_options getCredentials
                                 with_parameter String.eqb Ascii.eqb Bool.eqb];
    rewrite Hfmt;
    destruct (getNodeParameter this "fromEmail" itemIndex); [|by eexists| |by eexists];
    destruct (getNodeParameter this "toEmail" itemIndex); [|by eexists| |by eexists];
    destruct (getNodeParameter this "subject" itemIndex); [|by eexists| |by eexists];
    destruct (getNodeParameter_options this itemIndex) as [options|];
      [|by eexists| |by eexists];
    destruct (getCredentials this "smtp"); [|by eexists| |by eexists];
    cbn [String.eqb Ascii.eqb Bool.eqb]; rewrite Hg; by eexists.
Qed.

(** X13. The [text] parameter is asked for exactly when [emailFormat] is
    ['text'], and the [html] parameter exactly when it is ['html']: under
    the other format, however that parameter resolves, even by throwing, the
    iteration is the same; under its own format, if it throws, the item is
    skipped. *)
Theorem body_parameter_read_when_selected (p : string) (g : nat → Completion string)
    (itemIndex : nat) (item : INodeExecutionData) (st : LoopState) (emailFormat : string) :
  p = "text" ∨ p = "html" →
  getNodeParameter this "emailFormat" itemIndex = Return emailFormat →
  (emailFormat ≠ p →
   process_item (with_parameter this p g) itemIndex item st
   = process_item this itemIndex item st) ∧
  (emailFormat = p → ∀ e, g itemIndex = Throw e →
   ∃ e', process_item (with_parameter this p g) itemIndex item st = (Throw e', st)).
Proof.
  intros Hp Hfmt. split.
  - intros Hne. by eapply body_parameter_not_requested.
  - intros -> e Hg. by eapply body_parameter_requested.
Qed.

End Requests.

Lemma body_parameter_read_when_selected_witness :
  getNodeParameter paced_host "emailFormat" 1 = Return "text" ∧
  process_item (with_parameter paced_host "html" (λ _, Throw (host_error "no html")))
    1 plain_item (initial_state ∅)
  = process_item paced_host 1 plain_item (initial_state ∅).
Proof.
  split; [reflexivity|].
  destruct (body_parameter_read_when_selected paced_host "html"
              (λ _, Throw (host_error "no html")) 1 plain_item (initial_state ∅) "text")
    as [Hother _].
  - by right.
  - reflexivity.
  - apply Hother. discriminate.
Defined.

(** ** The declared parameters and the code that reads them *)

Section Declared.

Variable this : IExecuteFunctions.

(** A parameter that is always shown is always asked for. *)
Lemma header_parameter_requested (p : string) (g : nat → Completion string)
    (itemIndex : nat) (item : INodeExecutionData) (st : LoopState) (e : Thrown) :
  p = "fromEmail" ∨ p = "toEmail" ∨ p = "subject" ∨ p = "emailFormat" →
  g itemIndex = Throw e →
  ∃ e', process_item (with_parameter this p g) itemIndex item st = (Throw e', st).
Proof.
  intros Hp Hg.
  unfold process_item, configureTransport, bind, call, ret.
  destruct Hp as [-> | [-> | [-> | ->]]];
    cbn [getNodeParameter with_parameter String.eqb Ascii.eqb Bool.eqb];
    rewrite ?Hg; try (by eexists);
    (destruct (getNodeParameter this "fromEmail" itemIndex); [|by eexists]);
    rewrite ?Hg; try (by eexists);
    (destruct (getNodeParameter this "toEmail" itemIndex); [|by eexists]);
    rewrite ?Hg; try (by eexists);
    (destruct (getNodeParameter this "subject" itemIndex); [|by eexists]);
    rewrite ?Hg; by eexists.
Qed.

(** X14. When an iteration throws, what it throws was thrown by the host
    while resolving one of the parameters the node declares, the smtp
    credentials, or the binary data of an attachment: [execute] asks for
    no parameter that [properties] does not declare. *)
Theorem only_declared_parameters_requested (itemIndex : nat)
    (item : INodeExecutionData) (st st' : LoopState) (e : Thrown) :
  process_item this itemIndex item st = (Throw e, st') →
  (∃ name, name ∈ map NodeProperties.name NodeProperties.properties ∧
           name ≠ "options" ∧
           getNodeParameter this name itemIndex = Throw e)
  ∨ ("options" ∈ map NodeProperties.name NodeProperties.properties ∧
     getNodeParameter_options this itemIndex = Throw e)
  ∨ getCredentials this "smtp" = Throw e
  ∨ (∃ propertyName,
       assertBinaryData this itemIndex propertyName = Throw e ∨
       getBinaryDataBuffer this itemIndex propertyName = Throw e).
Proof.
  assert (∀ name, name ∈ ["fromEmail"; "toEmail"; "subject"; "emailFormat"; "text"; "html"] →
          getNodeParameter this name itemIndex = Throw e →
          ∃ name, name ∈ map NodeProperties.name NodeProperties.properties ∧
                  name ≠ "options" ∧ getNodeParameter this name itemIndex = Throw e)
    as Hdeclared.
  { intros name Hin Hthrow. exists name. split; [|split; [|done]].
    - simpl. repeat (apply elem_of_cons in Hin as [-> | Hin];
                     [repeat first [apply list_elem_of_here | apply list_elem_of_further]|]).
      by apply elem_of_nil in Hin.
    - intros ->. repeat (apply elem_of_cons in Hin as [? | Hin]; [discriminate|]).
      by apply elem_of_nil in Hin. }
  unfold process_item, configureTransport, bind, call, ret.
  destruct (getNodeParameter this "fromEmail" itemIndex) as [fromEmail|e0] eqn:Hfrom.
  2:{ intros [= <- <-]. left. apply (Hdeclared "fromEmail"); [|done].
      repeat first [apply list_elem_of_here | apply list_elem_of_further]. }
  destruct (getNodeParameter this "toEmail" itemIndex) as [toEmail|e0] eqn:Hto.
  2:{ intros [= <- <-]. left. apply (Hdeclared "toEmail"); [|done].
      repeat first [apply list_elem_of_here | apply list_elem_of_further]. }
  destruct (getNodeParameter this "subject" itemIndex) as [subject|e0] eqn:Hsubject.
  2:{ intros [= <- <-]. left. apply (Hdeclared "subject"); [|done].
      repeat first [apply list_elem_of_here | apply list_elem_of_further]. }
  destruct (getNodeParameter this "emailFormat" itemIndex) as [emailFormat|e0] eqn:Hformat.
  2:{ intros [= <- <-]. left. apply (Hdeclared "emailFormat"); [|done].
      repeat first [apply list_elem_of_here | apply list_elem_of_further]. }
  destruct (getNodeParameter_options this itemIndex) as [options|e0] eqn:Hoptions.
  2:{ intros [= <- <-]. right. left. split; [|done]. simpl.
      repeat first [apply list_elem_of_here | apply list_elem_of_further]. }
  destruct (getCredentials this "smtp") as [credentials|e0] eqn:Hcred.
  2:{ intros [= <- <-]. right. right. by left. }
  destruct (String.eqb emailFormat "text");
    [destruct (getNodeParameter this "text" itemIndex) as [vtext|e0] eqn:Htext|].
  2:{ intros [= <- <-]. left. apply (Hdeclared "text"); [|done].
      repeat first [apply list_elem_of_here | apply list_elem_of_further]. }
  all: destruct (String.eqb emailFormat "html");
    [destruct (getNodeParameter this "html" itemIndex) as [vhtml|e0] eqn:Hhtml|].
  all: try (intros [= <- <-]; left; apply (Hdeclared "html"); [|done];
            repeat first [apply list_elem_of_here | apply list_elem_of_further]).
  all: destruct (truthy (EmailSendOptions.attachments options)
                 && bool_decide (is_Some (binary item))).
  all: try (destruct (attach_loop_run this itemIndex
              (map trim (split "," (nullish (EmailSendOptions.attachments options) ""))) [])
              as [(e0 & Hloop & Hwhy) | (added & Hloop & _)];
            rewrite Hloop;
            [intros [= <- <-]; right; right; right; exact Hwhy|]).
  all: try destruct (0 <? length ([] ++ added)).
  all: unfold sleep, push_sendMail; destruct (pacing_due itemIndex _ _); discriminate.
Qed.

(** X15. A parameter that [properties] always shows is always asked for; one
    that it shows for some values of [emailFormat] only is asked for under
    exactly those values. Asked for means: if resolving it throws, the item
    is skipped; not asked for means: however it resolves, the iteration is
    the same. *)
Theorem parameters_read_when_shown (p : NodeProperties.INodeProperties)
    (g : nat → Completion string) (itemIndex : nat) (item : INodeExecutionData)
    (st : LoopState) :
  p ∈ NodeProperties.properties →
  NodeProperties.name p ≠ "options" →
  (NodeProperties.shown_formats p = None →
   ∀ e, g itemIndex = Throw e →
   ∃ e', process_item (with_parameter this (NodeProperties.name p) g) itemIndex item st
         = (Throw e', st)) ∧
  (∀ formats emailFormat,
     NodeProperties.shown_formats p = Some formats →
     getNodeParameter this "emailFormat" itemIndex = Return emailFormat →
     (emailFormat ∈ formats →
      ∀ e, g itemIndex = Throw e →
      ∃ e', process_item (with_parameter this (NodeProperties.name p) g) itemIndex item st
            = (Throw e', st)) ∧
     (emailFormat ∉ formats →
      process_item (with_parameter this (NodeProperties.name p) g) itemIndex item st
      = process_item this itemIndex item st)).
Proof.
  intros Hin Hname. unfold NodeProperties.properties in Hin.
  repeat (apply elem_of_cons in Hin as [-> | Hin]); [..|by apply elem_of_nil in Hin];
    cbn [NodeProperties.name] in *; try done.
  1-4: split;
    [ intros _ e Hg; eapply header_parameter_requested; [|done]; tauto
    | intros formats emailFormat Hshown; by vm_compute in Hshown ].
  - split; [intros Hshown; by vm_compute in Hshown|].
    intros formats emailFormat Hshown Hfmt.
    change (Some ["text"] = Some formats) in Hshown. injection Hshown as <-. split.
    + intros ->%list_elem_of_singleton e Hg.
      eapply body_parameter_requested; [by left|done..].
    + intros Hne. eapply body_parameter_not_requested; [by left|done|].
      intros ->. apply Hne, list_elem_of_here.
  - split; [intros Hshown; by vm_compute in Hshown|].
    intros formats emailFormat Hshown Hfmt.
    change (Some ["html"] = Some formats) in Hshown. injection Hshown as <-. split.
    + intros ->%list_elem_of_singleton e Hg.
      eapply body_parameter_requested; [by right|done..].
    + intros Hne. eapply body_parameter_not_requested; [by right|done|].
      intros ->. apply Hne, list_elem_of_here.
Qed.

End Declared.



Lemma only_declared_parameters_requested_witness :
  process_item (plain_host 2 [0] true) 0 plain_item (initial_state ∅)
  = (Throw (host_error "toEmail is required"), initial_state ∅) ∧
  getNodeParameter (plain_host 2 [0] true) "toEmail" 0
  = Throw (host_error "toEmail is required").
Proof.
  assert (process_item (plain_host 2 [0] true) 0 plain_item (initial_state ∅)
          = (Throw (host_error "toEmail is required"), initial_state ∅)) as Hrun
    by reflexivity.
  split; [exact Hrun|].
  destruct (only_declared_parameters_requested (plain_host 2 [0] true) 0 plain_item
              _ _ _ Hrun) as [(name & _ & _ & _) | _]; reflexivity.
Defined.

Lemma parameters_read_when_shown_witness :
  ∃ p, NodeProperties.properties !! 4 = Some p ∧
       NodeProperties.name p = "text" ∧
       NodeProperties.shown_formats p = Some ["text"] ∧
       ∃ e', process_item
               (with_parameter paced_host (NodeProperties.name p)
                  (λ _, Throw (host_error "no text")))
               1 plain_item (initial_state ∅)
             = (Throw e', initial_state ∅).
Proof.
  destruct (NodeProperties.properties !! 4) as [p|] eqn:Hp;
    [|vm_compute in Hp; discriminate].
  assert (p ∈ NodeProperties.properties) as Hin by (by eapply list_elem_of_lookup_2).
  assert (NodeProperties.name p = "text") as Hname
    by (vm_compute in Hp; injection Hp as <-; reflexivity).
  assert (NodeProperties.shown_formats p = Some ["text"]) as Hshown
    by (vm_compute in Hp; injection Hp as <-; reflexivity).
  exists p. split; [reflexivity|]. split; [exact Hname|]. split; [exact Hshown|].
  destruct (parameters_read_when_shown paced_host p (λ _, Throw (host_error "no text"))
              1 plain_item (initial_state ∅) Hin) as [_ Hcond].
  - rewrite Hname. discriminate.
  - destruct (Hcond ["text"] "text" Hshown eq_refl) as [Hasked _].
    apply (Hasked (list_elem_of_here _ _) (host_error "no text") eq_refl).
Defined.
